(** * Skill loader and agent turn loop of langchain-skills-test

    A shallow embedding of the TypeScript sources
    [src/index-with-graph.ts], [src/index-with-skills.ts] and
    [src/index-with-claude-tools.ts]:

    - JavaScript strings are sequences of UTF-16 code units;
    - the three regular expressions of [loadSkillsMetadata] are written
      as data and run by a small backtracking matcher;
    - [async] functions that log or call a collaborator live in a state
      and exception monad;
    - the compiled [StateGraph] is a loop over its two nodes;
    - the file and fetch tools run against an abstract [fs], [path]
      and [fetch]. *)

From Stdlib Require Import String Ascii.
From Stdlib Require Import List NArith ZArith Arith Lia Bool.
Import ListNotations.

Set Implicit Arguments.

(* ================================================================= *)
(** * JavaScript strings *)

Module JS.

(** A string is its sequence of UTF-16 code units. *)
Definition jsstring := list N.

(** ASCII literals, written as Rocq strings. *)
Definition js (s : string) : jsstring :=
  map N_of_ascii (list_ascii_of_string s).

(** The escape [\n]. *)
Definition LF : jsstring := [10%N].

Definition code_eqb (a b : N) : bool := N.eqb a b.
Arguments code_eqb : simpl never.

Fixpoint str_eqb (a b : jsstring) : bool :=
  match a, b with
  | [], [] => true
  | x :: a', y :: b' => code_eqb x y && str_eqb a' b'
  | _, _ => false
  end.

Definition jsstring_eq_dec : forall a b : jsstring, {a = b} + {a <> b} :=
  list_eq_dec N.eq_dec.

(** ECMAScript LineTerminator: LF, CR, LS, PS. *)
Definition is_line_terminator (c : N) : bool :=
  (c =? 10)%N || (c =? 13)%N || (c =? 8232)%N || (c =? 8233)%N.

(** ECMAScript WhiteSpace together with LineTerminator: the class [\s],
    which is also what [String.prototype.trim] strips. *)
Definition is_space (c : N) : bool :=
  (c =? 9)%N || (c =? 11)%N || (c =? 12)%N || (c =? 32)%N || (c =? 160)%N
  || (c =? 5760)%N || ((8192 <=? c)%N && (c <=? 8202)%N)
  || (c =? 8239)%N || (c =? 8287)%N || (c =? 12288)%N || (c =? 65279)%N
  || is_line_terminator c.

(** The class [.] (no [s] flag): anything but a line terminator. *)
Definition is_dot (c : N) : bool := negb (is_line_terminator c).

(** The class [[\s\S]]: any code unit. *)
Definition is_any (c : N) : bool := is_space c || negb (is_space c).

Fixpoint trimStart (s : jsstring) : jsstring :=
  match s with
  | [] => []
  | c :: s' => if is_space c then trimStart s' else s
  end.

Definition trimEnd (s : jsstring) : jsstring := rev (trimStart (rev s)).

(** [String.prototype.trim]. *)
Definition trim (s : jsstring) : jsstring := trimEnd (trimStart s).

(** [Array.prototype.join] of an array of strings. *)
Fixpoint join (sep : jsstring) (parts : list jsstring) : jsstring :=
  match parts with
  | [] => []
  | [p] => p
  | p :: rest => p ++ sep ++ join sep rest
  end.

(** [s.startsWith(l)], returning what follows [l]. *)
Fixpoint strip_prefix (l s : jsstring) : option jsstring :=
  match l with
  | [] => Some s
  | x :: l' =>
      match s with
      | [] => None
      | y :: s' => if code_eqb x y then strip_prefix l' s' else None
      end
  end.

End JS.
Export JS.

(* ================================================================= *)
(** * Regular expressions *)

Module Regex.

(** The patterns of the loader are concatenations of literals and of
    quantified character classes, possibly captured. *)
Inductive quant := Greedy | Lazy.

Inductive node :=
| Lit (l : jsstring)
| Rep (q : quant) (cls : N -> bool) (min : nat) (capture : bool).

(** [anchored] is a leading [^] (no [m] flag: start of input only). *)
Record regex := { anchored : bool; body : list node }.

(** The result of [RegExp.prototype.exec]: the text before the match, the
    captured groups in order, and the text after the match. *)
Record match_result := {
  before : jsstring;
  groups : list jsstring;
  rest : jsstring
}.

Fixpoint first_some {A B : Type} (f : A -> option B) (l : list A) : option B :=
  match l with
  | [] => None
  | a :: l' => match f a with Some b => Some b | None => first_some f l' end
  end.

Fixpoint run_length (cls : N -> bool) (s : jsstring) : nat :=
  match s with
  | c :: s' => if cls c then S (run_length cls s') else 0
  | [] => 0
  end.

(** The repetition counts a backtracking matcher tries, in order, for a
    class that matches at most [n] times here. *)
Definition counts (q : quant) (min n : nat) : list nat :=
  match q with
  | Lazy => seq min (S n - min)
  | Greedy => rev (seq min (S n - min))
  end.

(** Match the nodes at the start of [s]. *)
Fixpoint match_here (r : list node) (s : jsstring)
  : option (list jsstring * jsstring) :=
  match r with
  | [] => Some ([], s)
  | Lit l :: r' =>
      match strip_prefix l s with
      | Some s' => match_here r' s'
      | None => None
      end
  | Rep q cls min cap :: r' =>
      first_some
        (fun k =>
           match match_here r' (skipn k s) with
           | Some (gs, s') => Some (if cap then firstn k s :: gs else gs, s')
           | None => None
           end)
        (counts q min (run_length cls s))
  end.

(** Try every start position from the left. *)
Fixpoint search (r : list node) (pre s : jsstring) : option match_result :=
  match match_here r s with
  | Some (gs, s') => Some {| before := pre; groups := gs; rest := s' |}
  | None =>
      match s with
      | [] => None
      | c :: s' => search r (pre ++ [c]) s'
      end
  end.

(** [s.match(re)] for a pattern without the [g] flag. *)
Definition exec (re : regex) (s : jsstring) : option match_result :=
  if anchored re then
    match match_here (body re) s with
    | Some (gs, s') => Some {| before := []; groups := gs; rest := s' |}
    | None => None
    end
  else search (body re) [] s.

(** [m[i]] for [i >= 1]. *)
Definition group (i : nat) (m : match_result) : jsstring :=
  nth (i - 1) (groups m) [].

(** [s.replace(re, repl)] for a pattern without the [g] flag and a
    replacement text without [$]. *)
Definition replace (re : regex) (repl s : jsstring) : jsstring :=
  match exec re s with
  | Some m => before m ++ repl ++ rest m
  | None => s
  end.

(* ----------------------------------------------------------------- *)
(** *** Readings of the matcher used in the proofs *)

(** One candidate of a repetition: [k] code units for the class, the
    remaining nodes on what follows. *)
Definition candidate (r : list node) (cap : bool) (s : jsstring) (k : nat)
  : option (list jsstring * jsstring) :=
  match match_here r (skipn k s) with
  | Some (gs, s') => Some (if cap then firstn k s :: gs else gs, s')
  | None => None
  end.

(** A lazy repetition of [[\s\S]] is a scan for the first place where
    the remaining nodes match. *)
Fixpoint scan (r : list node) (cap : bool) (pre s : jsstring)
  : option (list jsstring * jsstring) :=
  match match_here r s with
  | Some (gs, s') => Some (if cap then pre :: gs else gs, s')
  | None =>
      match s with
      | [] => None
      | c :: s' => scan r cap (pre ++ [c]) s'
      end
  end.

(** [p] occurs somewhere in [s]. *)
Fixpoint occurs (p s : jsstring) : bool :=
  match strip_prefix p s with
  | Some _ => true
  | None =>
      match s with
      | [] => false
      | _ :: s' => occurs p s'
      end
  end.

Definition not_LF (c : N) : Prop := c <> 10%N.
Definition not_colon (c : N) : Prop := c <> 58%N.

End Regex.
Export Regex.

(* ================================================================= *)
(** * State and exception monad *)

Module Eff.

(** What a JavaScript [throw] carries here. *)
Inductive exn :=
| TypeError (reading : jsstring)
    (** a property read on [undefined] *)
| Error (message : jsstring)
| GraphRecursionError.

(** A computation over a state [S] that returns or throws. *)
Definition M (S A : Type) : Type := S -> (exn + A) * S.

Definition ret {S A} (a : A) : M S A := fun s => (inr a, s).

Definition throw {S A} (e : exn) : M S A := fun s => (inl e, s).

Definition bind {S A B} (c : M S A) (k : A -> M S B) : M S B :=
  fun s =>
    match c s with
    | (inr a, s') => k a s'
    | (inl e, s') => (inl e, s')
    end.

(** [try { c } catch (error) { h error }]. *)
Definition try_catch {S A} (c : M S A) (h : exn -> M S A) : M S A :=
  fun s =>
    match c s with
    | (inr a, s') => (inr a, s')
    | (inl e, s') => h e s'
    end.

(** Awaiting a collaborator that resolves or rejects with a message. *)
Definition await {S A} (r : jsstring + A) : M S A :=
  match r with
  | inr a => ret a
  | inl msg => throw (Error msg)
  end.

Definition lift {S A} (r : exn + A) : M S A :=
  match r with
  | inr a => ret a
  | inl e => throw e
  end.

End Eff.
Export Eff.

Declare Scope eff_scope.
Delimit Scope eff_scope with eff.
Notation "x <- c ;; k" := (bind c (fun x => k))
  (at level 61, c at next level, right associativity) : eff_scope.
Notation "c ;;; k" := (bind c (fun _ => k))
  (at level 61, right associativity) : eff_scope.
Open Scope eff_scope.

(* ================================================================= *)
(** * The skill loader ([loadSkillsMetadata]) *)

Module Loader.

(** What the loader uses of deepagents' [FilesystemBackend]. *)
Record FileInfo := { path : jsstring; is_dir : bool }.
Record FileData := { content : list jsstring }.
Record FilesystemBackend := {
  lsInfo : jsstring -> jsstring + list FileInfo;
  readRaw : jsstring -> jsstring + FileData
}.

Record Skill := {
  name : jsstring;
  description : jsstring;
  skill_path : jsstring;
  instructions : jsstring
}.

(** [/^---\n([\s\S]+?)\n---/] *)
Definition frontmatter_re : regex :=
  {| anchored := true;
     body := [Lit (js "---" ++ LF); Rep Lazy is_any 1 true; Lit (LF ++ js "---")] |}.

(** [/name:\s*(.+)/] *)
Definition name_re : regex :=
  {| anchored := false;
     body := [Lit (js "name:"); Rep Greedy is_space 0 false; Rep Greedy is_dot 1 true] |}.

(** [/description:\s*(.+)/] *)
Definition description_re : regex :=
  {| anchored := false;
     body := [Lit (js "description:"); Rep Greedy is_space 0 false;
              Rep Greedy is_dot 1 true] |}.

(** [/^---\n[\s\S]+?\n---\n/] *)
Definition strip_re : regex :=
  {| anchored := true;
     body := [Lit (js "---" ++ LF); Rep Lazy is_any 1 false;
              Lit (LF ++ js "---" ++ LF)] |}.

(** The part of the [try] block after the file has been read: the
    descriptor pushed to [skills], if any. *)
Definition parse_skill (content skillMdPath : jsstring) : option Skill :=
  match exec frontmatter_re content with
  | Some frontmatterMatch =>
      let frontmatter := group 1 frontmatterMatch in
      match exec name_re frontmatter, exec description_re frontmatter with
      | Some nameMatch, Some descMatch =>
          let instructions := replace strip_re [] content in
          Some {| name := trim (group 1 nameMatch);
                  description := trim (group 1 descMatch);
                  skill_path := skillMdPath;
                  instructions := trim instructions |}
      | _, _ => None
      end
  | None => None
  end.

(** The state of the loader is what it has written with [console.warn]. *)
Definition Console := list jsstring.

Definition console_warn (line : jsstring) : M Console unit :=
  fun out => (inr tt, out ++ [line]).

Definition skillMdPath_of (dir : FileInfo) : jsstring :=
  path dir ++ js "SKILL.md".

(** One iteration of [for (const dir of skillDirs)]. *)
Definition load_one (backend : FilesystemBackend) (skills : list Skill)
  (dir : FileInfo) : M Console (list Skill) :=
  if is_dir dir then
    let skillMdPath := skillMdPath_of dir in
    try_catch
      (fileData <- await (readRaw backend skillMdPath) ;;
       let content := join LF (content fileData) in
       match parse_skill content skillMdPath with
       | Some skill => ret (skills ++ [skill])
       | None => ret skills
       end)
      (fun _ =>
         console_warn (js "Warning: Could not load skill from " ++ skillMdPath) ;;;
         ret skills)
  else ret skills.

Fixpoint load_loop (backend : FilesystemBackend) (skills : list Skill)
  (skillDirs : list FileInfo) : M Console (list Skill) :=
  match skillDirs with
  | [] => ret skills
  | dir :: more =>
      skills' <- load_one backend skills dir ;;
      load_loop backend skills' more
  end.

Definition loadSkillsMetadata (backend : FilesystemBackend)
  (skillsPath : jsstring) : M Console (list Skill) :=
  skillDirs <- await (lsInfo backend skillsPath) ;;
  load_loop backend [] skillDirs.

(* ----------------------------------------------------------------- *)
(** *** Shapes of patterns, headers and values *)

(** The two anchored patterns share their shape: the opening line, a
    lazy run, and a closing literal that begins with a line feed and
    three dashes. *)
Definition delimited (cap : bool) (closing_tail : jsstring) : list node :=
  [Lit (js "---" ++ LF); Rep Lazy is_any 1 cap;
   Lit (LF ++ js "---" ++ closing_tail)].

Definition key_body (key : jsstring) : list node :=
  [Lit key; Rep Greedy is_space 0 false; Rep Greedy is_dot 1 true].

(** Where the value ends: at the end of the text or at a line break. *)
Definition ends_line (tail : jsstring) : Prop :=
  match tail with [] => True | c :: _ => is_dot c = false end.

(** A value as the skill files write it: not empty, no line break, no
    colon, no white space in front. *)
Definition plain_value (v : jsstring) : bool :=
  match v with
  | [] => false
  | c :: _ => negb (is_space c)
  end && forallb (fun x => is_dot x && negb (x =? 58)%N) v.



Definition all_space (s : jsstring) : Prop :=
  Forall (fun c => is_space c = true) s.

(* ----------------------------------------------------------------- *)
(** *** The loop, entry by entry *)

(** The code's test on a file content: a header, and both keys in it. *)
Definition validly_headered (content : jsstring) : bool :=
  match exec frontmatter_re content with
  | Some frontmatterMatch =>
      match exec name_re (group 1 frontmatterMatch),
            exec description_re (group 1 frontmatterMatch) with
      | Some _, Some _ => true
      | _, _ => false
      end
  | None => false
  end.

(** A subdirectory whose instruction file can be read and passes. *)
Definition has_valid_skill (backend : FilesystemBackend) (dir : FileInfo) : bool :=
  is_dir dir &&
  match readRaw backend (skillMdPath_of dir) with
  | inr fileData => validly_headered (join LF (content fileData))
  | inl _ => false
  end.

(** What an entry adds to [skills]. *)
Definition loaded (backend : FilesystemBackend) (dir : FileInfo) : list Skill :=
  if is_dir dir then
    match readRaw backend (skillMdPath_of dir) with
    | inr fileData =>
        match parse_skill (join LF (content fileData)) (skillMdPath_of dir) with
        | Some skill => [skill]
        | None => []
        end
    | inl _ => []
    end
  else [].

(** What an entry writes to the console. *)
Definition warned (backend : FilesystemBackend) (dir : FileInfo) : list jsstring :=
  if is_dir dir then
    match readRaw backend (skillMdPath_of dir) with
    | inr _ => []
    | inl _ => [js "Warning: Could not load skill from " ++ skillMdPath_of dir]
    end
  else [].

End Loader.
Export Loader.

(* ================================================================= *)
(** * The spec's reading of the file format *)

(** The spec's words for the instructions: the text that follows the
    second delimiter, one leading newline removed if present. *)
Definition spec_instructions (content : jsstring) : option jsstring :=
  match exec frontmatter_re content with
  | Some m =>
      Some (match rest m with
            | c :: body => if code_eqb c 10 then body else c :: body
            | [] => []
            end)
  | None => None
  end.


(* ================================================================= *)
(** * Acceptance of an instruction file, read on its text *)

Module Format.

(** The text of a file given by its lines: a line feed between two
    lines. *)
Fixpoint file_text (lines : list jsstring) : jsstring :=
  match lines with
  | [] => []
  | l :: more =>
      match more with
      | [] => l
      | _ :: _ => l ++ 10%N :: file_text more
      end
  end.

(** [h] is the header of [content]: the text between the opening line
    of three dashes and the first line feed followed by three dashes
    that comes after at least one code unit. *)
Definition header_of (content h rest : jsstring) : Prop :=
  h <> [] /\
  content = js "---" ++ LF ++ h ++ LF ++ js "---" ++ rest /\
  occurs (LF ++ js "---") (tl h) = false.

(** The text [key] stands in [h], followed by white space, if any, and
    then by something other than a line terminator. *)
Definition key_present (key h : jsstring) : Prop :=
  exists pre sp c post,
    h = pre ++ key ++ sp ++ c :: post /\
    all_space sp /\ is_line_terminator c = false.

Definition accepted_text (content : jsstring) : Prop :=
  exists h rest,
    header_of content h rest /\
    key_present (js "name:") h /\ key_present (js "description:") h.

(** A subdirectory whose file [SKILL.md] can be read and is accepted. *)
Definition accepted_entry (backend : FilesystemBackend) (dir : FileInfo) : Prop :=
  is_dir dir = true /\
  exists lines,
    readRaw backend (path dir ++ js "SKILL.md") = inr {| content := lines |} /\
    accepted_text (file_text lines).

(** A subdirectory whose file [SKILL.md] cannot be read. *)
Definition unreadable_entry (backend : FilesystemBackend) (dir : FileInfo) : Prop :=
  is_dir dir = true /\
  exists msg, readRaw backend (path dir ++ js "SKILL.md") = inl msg.


End Format.
Export Format.

(* ================================================================= *)
(** * The spec's reading of a valid header *)





(* ================================================================= *)
(** * The skills prompts *)

Module Prompts.

(** A text between double quotes. *)
Definition quoted (s : string) : jsstring := [34%N] ++ js s ++ [34%N].

(** The arrow U+2192. *)
Definition arrow : jsstring := [8594%N].

(** [index-with-skills.ts]: the entry of one skill. *)
Definition skill_entry (s : Skill) : jsstring :=
  js "**" ++ name s ++ js "**: " ++ description s ++ LF ++
  js "   - Full instructions: Read " ++ skill_path s ++
  js " using the read_file tool".

(** [index-with-skills.ts]: the template literal [skillsPrompt]. *)
Definition skillsPrompt (skills : list Skill) : jsstring :=
  join LF
    [js "You have access to the following skills:";
     [];
     join (LF ++ LF) (map skill_entry skills);
     [];
     js "When a user asks you to use a skill:";
     js "1. Use the read_file tool to read the SKILL.md file";
     js "2. Follow the instructions in the SKILL.md file";
     js "3. Use the execute tool if the instructions require running a command"].

(** [/^\/skills\//] *)
Definition virtual_root_re : regex :=
  {| anchored := true; body := [Lit (js "/skills/")] |}.

(** [index-with-claude-tools.ts]: the entry of one skill, its virtual
    path turned into the actual one. *)
Definition skill_entry_actual (s : Skill) : jsstring :=
  let actualPath := replace virtual_root_re (js "skills/") (skill_path s) in
  js "**" ++ name s ++ js "**: " ++ description s ++ LF ++
  js "   - Full instructions: Read " ++ actualPath ++
  js " using the read_file tool".

(** [index-with-claude-tools.ts]: the template literal [skillsPrompt]. *)
Definition skillsPrompt_claude_tools (skills : list Skill) : jsstring :=
  join LF
    [js "You have access to the following skills:";
     [];
     join (LF ++ LF) (map skill_entry_actual skills);
     [];
     js "When a user asks you to use a skill:";
     js "1. Use the read_file tool to read the SKILL.md file (path starts with "
       ++ quoted "skills/" ++ js ")";
     js "2. Follow the instructions in the SKILL.md file exactly";
     js "3. Use the bash_command tool if the instructions require running a command (npx tsx commands)";
     js "4. IMPORTANT: If SKILL.md mentions " ++ quoted "fetch_url" ++ js " or "
       ++ quoted "execute" ++ js ", use the corresponding tool:";
     js "   - " ++ quoted "fetch_url" ++ js " " ++ arrow ++ js " use "
       ++ quoted "web_fetch" ++ js " tool";
     js "   - " ++ quoted "execute" ++ js " " ++ arrow ++ js " use "
       ++ quoted "bash_command" ++ js " tool";
     [];
     js "Available tools and their usage:";
     js "- **read_file**: Read files (prefer this over bash cat/head/tail)";
     js "- **write_file**: Create new files (prefer this over bash echo/redirection)";
     js "- **edit_file**: Edit existing files (prefer this over sed/awk)";
     js "- **glob_files**: Search for files by pattern (prefer this over find/ls)";
     js "- **grep_search**: Search file contents (prefer this over bash grep)";
     js "- **bash_command**: Execute shell commands (for git, npm, docker, etc.)";
     js "- **web_fetch**: Fetch content from URLs (also referred to as "
       ++ quoted "fetch_url" ++ js " in some skills)";
     [];
     js "Important principles:";
     js "1. Always prefer dedicated tools over bash commands for file operations";
     js "2. Keep solutions simple and focused";
     js "3. Only make changes that are directly requested"].

End Prompts.

(* ================================================================= *)
(** * Messages and graph state *)

Module Engine.

Section WithJson.

(** JSON-compatible values, as they stand in tool-call arguments. *)
Variable json : Type.

Record ToolCall := {
  tc_name : jsstring;
  tc_args : list (jsstring * json);
  tc_id : jsstring
}.

(** The message classes of [@langchain/core/messages] that occur. *)
Inductive BaseMessage :=
| SystemMessage (content : jsstring)
| HumanMessage (content : jsstring)
| AIMessage (content : jsstring) (tool_calls : option (list ToolCall))
| ToolMessage (content : jsstring) (tool_call_id : jsstring).

(** [StateAnnotation]: one channel, [messages]. *)
Record State := { messages : list BaseMessage }.

(** [reducer: (x, y) => x.concat(y)] *)
Definition reducer (x y : list BaseMessage) : list BaseMessage := x ++ y.

(** A node returns [{ messages: upd }], merged by the reducer. *)
Definition apply_update (st : State) (upd : list BaseMessage) : State :=
  {| messages := reducer (messages st) upd |}.

(** The property read [m.tool_calls] on a message of any class. *)
Definition tool_calls_of (m : BaseMessage) : option (list ToolCall) :=
  match m with
  | AIMessage _ tcs => tcs
  | _ => None
  end.

(** [a[a.length - 1]], [undefined] on the empty array. *)
Definition last_message (a : list BaseMessage) : option BaseMessage :=
  nth_error a (length a - 1).

Inductive Route := Route_tools | Route_end.

(** [shouldContinue], the same in the three programs. *)
Definition shouldContinue (state : State) : exn + Route :=
  let messages := messages state in
  match last_message messages with
  | None => inl (TypeError (js "tool_calls"))
  | Some lastMessage =>
      match tool_calls_of lastMessage with
      | Some tool_calls =>
          if 0 <? length tool_calls then inr Route_tools else inr Route_end
      | None => inr Route_end
      end
  end.

(* ----------------------------------------------------------------- *)
(** *** The model *)

(** The state threaded through the engine: the inputs of the model
    invocations made so far, oldest first. *)
Definition Log := list (list BaseMessage).

(** A chat model with its tools bound.  An invocation resolves to the
    content and tool calls of one [AIMessage] or rejects with a message;
    its answer may depend on the earlier invocations. *)
Record ChatModel := {
  respond : Log -> list BaseMessage ->
            jsstring + (jsstring * option (list ToolCall))
}.

(** [await model.invoke(input)] *)
Definition model_invoke (model : ChatModel) (input : list BaseMessage)
  : M Log BaseMessage :=
  fun log =>
    (match respond model log input with
     | inr (c, tcs) => inr (AIMessage c tcs)
     | inl msg => inl (Error msg)
     end, log ++ [input]).

(* ----------------------------------------------------------------- *)
(** *** The agent nodes *)

(** [index-with-graph.ts], the node ["agent"]. *)
Definition graph_agent (modelWithTools : ChatModel) (state : State)
  : M Log (list BaseMessage) :=
  let messages := messages state in
  response <- model_invoke modelWithTools messages ;;
  ret [response].

(** [index-with-skills.ts] and [index-with-claude-tools.ts], the node
    ["agent"]; the two differ in the text of [skillsPrompt] only. *)
Definition skills_agent (modelWithTools : ChatModel) (skillsPrompt : jsstring)
  (state : State) : M Log (list BaseMessage) :=
  let messages := messages state in
  if length messages =? 1 then
    let systemMessage := SystemMessage skillsPrompt in
    let messagesWithSkills := systemMessage :: messages in
    response <- model_invoke modelWithTools messagesWithSkills ;;
    ret [response]
  else
    response <- model_invoke modelWithTools messages ;;
    ret [response].

(** [config.configurable?.model] *)
Record Configurable := { model : option ChatModel }.
Record Config := { configurable : option Configurable }.

Definition config_model (config : Config) : option ChatModel :=
  match configurable config with
  | Some c => model c
  | None => None
  end.

(** [index-with-graph.ts], [callModel]. *)
Definition callModel (state : State) (config : Config)
  : M Log (list BaseMessage) :=
  let messages := messages state in
  match config_model config with
  | None => throw (Error (js "Model not provided in config"))
  | Some model =>
      response <- model_invoke model messages ;;
      ret [response]
  end.

(* ----------------------------------------------------------------- *)
(** *** The tools node *)

Record Tool := {
  tool_name : jsstring;
  func : list (jsstring * json) -> jsstring + jsstring
}.

Definition calls (tcs : option (list ToolCall)) : list ToolCall :=
  match tcs with
  | Some l => l
  | None => []
  end.

(** Modelled from the spec: the dispatch of one [ToolCall] by the
    prebuilt [ToolNode], which is library code.  The tool is looked up
    by name; an unknown name and a failing tool both give a
    [ToolMessage] whose text reports the error, under the id of the
    call. *)
Definition dispatch (registry : list Tool) (tc : ToolCall) : BaseMessage :=
  match find (fun t => str_eqb (tool_name t) (tc_name tc)) registry with
  | None =>
      ToolMessage (js "Error: unknown tool '" ++ tc_name tc ++ js "'") (tc_id tc)
  | Some t =>
      match func t (tc_args tc) with
      | inr out => ToolMessage out (tc_id tc)
      | inl msg => ToolMessage msg (tc_id tc)
      end
  end.

(** Modelled from the spec: the prebuilt [ToolNode] as a graph node.
    It dispatches the tool calls of the last message, in the order the
    model produced them, and returns one [ToolMessage] per call.  The
    spec gives it no behaviour on a state that does not end in an
    [AIMessage]; the library throws there. *)
Definition toolNode (registry : list Tool) (state : State)
  : M Log (list BaseMessage) :=
  match last_message (messages state) with
  | Some (AIMessage _ tcs) => ret (map (dispatch registry) (calls tcs))
  | _ => throw (Error (js "ToolNode only accepts AIMessages as input."))
  end.

(* ----------------------------------------------------------------- *)
(** *** The compiled graph *)

Inductive NodeName := agent | tools.

(** A workflow is its two nodes; the edges are those of the three
    programs: [__start__ -> agent], [agent -> tools | END] by
    [shouldContinue], [tools -> agent]. *)
Record Workflow := {
  agent_node : State -> M Log (list BaseMessage);
  tools_node : State -> M Log (list BaseMessage)
}.

(** Modelled from the spec: the execution of the compiled graph, which
    is library code, as the state machine of the turn loop.  From the
    agent node (the state awaiting the model) the answer is appended and
    [shouldContinue] routes to the tools node (the state awaiting the
    tools) or to the end; from the tools node the results are appended
    and the agent node is next.  [fuel] bounds the number of node
    executions, as the framework's recursion limit does; when it runs
    out the framework throws. *)
Fixpoint run (w : Workflow) (fuel : nat) (node : NodeName) (st : State)
  : M Log State :=
  match fuel with
  | 0 => throw GraphRecursionError
  | S fuel' =>
      match node with
      | agent =>
          upd <- agent_node w st ;;
          let st' := apply_update st upd in
          route <- lift (shouldContinue st') ;;
          match route with
          | Route_tools => run w fuel' tools st'
          | Route_end => ret st'
          end
      | tools =>
          upd <- tools_node w st ;;
          run w fuel' agent (apply_update st upd)
      end
  end.

(** Modelled from the spec: [app.invoke({ messages: input }, { configurable:
    { thread_id } })] on a thread whose checkpoint holds [saved].  The
    input goes through the reducer and the graph runs from its entry
    node. *)
Definition invoke (w : Workflow) (recursionLimit : nat)
  (saved input : list BaseMessage) : M Log State :=
  run w recursionLimit agent {| messages := reducer saved input |}.

(** One Session: the queries a caller sends on one thread, each as
    [[new HumanMessage(query)]], the transcript of one invocation being
    the checkpoint of the next.  An invocation that throws ends the
    program ([main().catch] exits). *)
Fixpoint session (w : Workflow) (recursionLimit : nat)
  (saved : list BaseMessage) (queries : list jsstring)
  : M Log (list BaseMessage) :=
  match queries with
  | [] => ret saved
  | query :: later =>
      result <- invoke w recursionLimit saved [HumanMessage query] ;;
      session w recursionLimit (messages result) later
  end.

Definition graph_app (modelWithTools : ChatModel) (registry : list Tool)
  : Workflow :=
  {| agent_node := graph_agent modelWithTools;
     tools_node := toolNode registry |}.

Definition skills_app (modelWithTools : ChatModel) (skillsPrompt : jsstring)
  (registry : list Tool) : Workflow :=
  {| agent_node := skills_agent modelWithTools skillsPrompt;
     tools_node := toolNode registry |}.

End WithJson.

Arguments SystemMessage {json} content.
Arguments HumanMessage {json} content.
Arguments ToolMessage {json} content tool_call_id.

(* ----------------------------------------------------------------- *)
(** *** Reading a transcript *)

Section Transcripts.

Context {json : Type}.

Definition is_system (m : BaseMessage json) : bool :=
  match m with SystemMessage _ => true | _ => false end.

Definition is_human (m : BaseMessage json) : bool :=
  match m with HumanMessage _ => true | _ => false end.

Definition is_ai (m : BaseMessage json) : bool :=
  match m with AIMessage _ _ => true | _ => false end.

(** The messages up to the next [AIMessage], not included. *)
Fixpoint until_next_ai (l : list (BaseMessage json)) : list (BaseMessage json) :=
  match l with
  | [] => []
  | AIMessage _ _ :: _ => []
  | m :: l' => m :: until_next_ai l'
  end.

(** The correlation ids of the tool results of [l], in order. *)
Fixpoint result_ids (l : list (BaseMessage json)) : list jsstring :=
  match l with
  | [] => []
  | ToolMessage _ i :: l' => i :: result_ids l'
  | _ :: l' => result_ids l'
  end.

(** The correlation ids of the tool calls of an [AIMessage], in order. *)
Definition call_ids (tcs : option (list (ToolCall json))) : list jsstring :=
  map (@tc_id json) (calls tcs).

(** Every [AIMessage] of the transcript is answered, before the next
    one, by the tool results of its calls, id for id and in order. *)
Fixpoint matched (t : list (BaseMessage json)) : Prop :=
  match t with
  | [] => True
  | AIMessage _ tcs :: post =>
      result_ids (until_next_ai post) = call_ids tcs /\ matched post
  | _ :: post => matched post
  end.

(** The agent node answers with exactly one [AIMessage]. *)
Definition appends_one_ai (w : Workflow json) : Prop :=
  forall st log upd log',
    agent_node w st log = (inr upd, log') ->
    exists c tcs, upd = [AIMessage c tcs].

(** The invariant of the graph: before the agent node the transcript is
    matched; before the tools node it is a matched transcript followed
    by the answer whose calls are due. *)
Definition node_invariant (node : NodeName) (st : State json) : Prop :=
  match node with
  | agent => matched (messages st)
  | tools => exists t c tcs, messages st = t ++ [AIMessage c tcs] /\ matched t
  end.

Definition system_free (msgs : list (BaseMessage json)) : Prop :=
  Forall (fun m => is_system m = false) msgs.

(** A transcript past the first turn: no [SystemMessage], an answer of
    the model already in it. *)
Definition past_first_turn (msgs : list (BaseMessage json)) : Prop :=
  system_free msgs /\ existsb is_ai msgs = true /\ 2 <= length msgs.

(** The model input opens with the skills prompt. *)
Definition injected (skillsPrompt : jsstring) (inp : list (BaseMessage json)) : Prop :=
  hd_error inp = Some (SystemMessage skillsPrompt).

(** The first-turn condition in the spec's words: exactly one [Human]
    message and no [Assistant] message. *)
Definition first_turn (inp : list (BaseMessage json)) : Prop :=
  length (filter is_human inp) = 1 /\ length (filter is_ai inp) = 0.

End Transcripts.

(** The graphs the three programs compile. *)
Definition index_with_graph {json} (modelWithTools : ChatModel json)
  (registry : list (Tool json)) : Workflow json :=
  graph_app modelWithTools registry.

Definition index_with_skills {json} (modelWithTools : ChatModel json)
  (skills : list Skill) (registry : list (Tool json)) : Workflow json :=
  skills_app modelWithTools (Prompts.skillsPrompt skills) registry.

Definition index_with_claude_tools {json} (modelWithTools : ChatModel json)
  (skills : list Skill) (registry : list (Tool json)) : Workflow json :=
  skills_app modelWithTools (Prompts.skillsPrompt_claude_tools skills) registry.

End Engine.
Export Engine.

(* ================================================================= *)
(** * String methods with string arguments *)

Module Str.

(** [s.split(sep)] for a non-empty [sep]: [cur] is the piece being
    read, [skip] counts the code units of a separator just met that are
    still ahead. *)
Fixpoint split_from (sep : jsstring) (skip : nat) (cur s : jsstring)
  : list jsstring :=
  match s with
  | [] => [cur]
  | c :: s' =>
      match skip with
      | S k => split_from sep k cur s'
      | 0 =>
          match strip_prefix sep s with
          | Some _ => cur :: split_from sep (length sep - 1) [] s'
          | None => split_from sep 0 (cur ++ [c]) s'
          end
      end
  end.

(** [s.split(sep)]; the empty separator splits into code units. *)
Definition split (sep s : jsstring) : list jsstring :=
  match sep with
  | [] => map (fun c => [c]) s
  | _ :: _ => split_from sep 0 [] s
  end.

(** GetSubstitution for a pattern without capture groups: [$$], [$&],
    [$`] and [$'] are replaced, any other [$] stands for itself. *)
Fixpoint get_substitution (matched before after template : jsstring)
  : jsstring :=
  match template with
  | [] => []
  | c :: t =>
      if (c =? 36)%N then
        match t with
        | [] => [c]
        | d :: t' =>
            if (d =? 36)%N then
              36%N :: get_substitution matched before after t'
            else if (d =? 38)%N then
              matched ++ get_substitution matched before after t'
            else if (d =? 96)%N then
              before ++ get_substitution matched before after t'
            else if (d =? 39)%N then
              after ++ get_substitution matched before after t'
            else c :: get_substitution matched before after t
        end
      else c :: get_substitution matched before after t
  end.

(** [s.replace(old, new)] with a string pattern: the first occurrence;
    [before] is the text already passed. *)
Fixpoint replace_from (old new before s : jsstring) : jsstring :=
  match strip_prefix old s with
  | Some after => get_substitution old before after new ++ after
  | None =>
      match s with
      | [] => []
      | c :: s' => c :: replace_from old new (before ++ [c]) s'
      end
  end.

Definition replace (old new s : jsstring) : jsstring :=
  replace_from old new [] s.

(** [s.replaceAll(old, new)] with a string pattern: the occurrences
    from the left, none overlapping another; the empty pattern occurs
    before every code unit and at the end. *)
Fixpoint replaceAll_from (old new : jsstring) (skip : nat)
  (before s : jsstring) : jsstring :=
  match s with
  | [] =>
      match old with
      | [] => get_substitution old before [] new
      | _ :: _ => []
      end
  | c :: s' =>
      match skip with
      | S k => replaceAll_from old new k (before ++ [c]) s'
      | 0 =>
          match strip_prefix old s with
          | Some after =>
              get_substitution old before after new ++
              match old with [] => [c] | _ :: _ => [] end ++
              replaceAll_from old new (length old - 1) (before ++ [c]) s'
          | None => c :: replaceAll_from old new 0 (before ++ [c]) s'
          end
      end
  end.

Definition replaceAll (old new s : jsstring) : jsstring :=
  replaceAll_from old new 0 [] s.

(** [s.substring(0, n)] for a non-negative integer [n]. *)
Definition substring0 (n : N) (s : jsstring) : jsstring :=
  firstn (N.to_nat n) s.

(** [a.slice(start, end)] for non-negative integers. *)
Definition slice {A} (start finish : N) (a : list A) : list A :=
  firstn (N.to_nat (finish - start)) (skipn (N.to_nat start) a).

(** [a.map((x, idx) => f(x, idx))] *)
Fixpoint mapi_from {A B} (f : A -> nat -> B) (idx : nat) (a : list A) : list B :=
  match a with
  | [] => []
  | x :: a' => f x idx :: mapi_from f (S idx) a'
  end.

Definition mapi {A B} (f : A -> nat -> B) (a : list A) : list B :=
  mapi_from f 0 a.

Fixpoint digits (d : Decimal.uint) : jsstring :=
  match d with
  | Decimal.Nil => []
  | Decimal.D0 d => 48%N :: digits d
  | Decimal.D1 d => 49%N :: digits d
  | Decimal.D2 d => 50%N :: digits d
  | Decimal.D3 d => 51%N :: digits d
  | Decimal.D4 d => 52%N :: digits d
  | Decimal.D5 d => 53%N :: digits d
  | Decimal.D6 d => 54%N :: digits d
  | Decimal.D7 d => 55%N :: digits d
  | Decimal.D8 d => 56%N :: digits d
  | Decimal.D9 d => 57%N :: digits d
  end.

(** The text of a non-negative integer in a template literal. *)
Definition number_to_string (n : N) : jsstring := digits (N.to_uint n).

(** The matches of [content.match(new RegExp(p, 'g'))] when the pattern
    [p] denotes the literal [lit]: non-overlapping from the left, the
    empty literal matching before every code unit and at the end. *)
Fixpoint count_from (lit : jsstring) (skip : nat) (s : jsstring) : nat :=
  match s with
  | [] => match lit with [] => 1 | _ :: _ => 0 end
  | c :: s' =>
      match skip with
      | S k => count_from lit k s'
      | 0 =>
          match strip_prefix lit s with
          | Some _ => S (count_from lit (length lit - 1) s')
          | None => count_from lit 0 s'
          end
      end
  end.

(** SyntaxCharacter of the pattern grammar: [^$\.*+?()[]{}|]. *)
Definition is_syntax_character (c : N) : bool :=
  existsb (N.eqb c) [94; 36; 92; 46; 42; 43; 63; 40; 41; 91; 93; 123; 125; 124]%N.

(** The literal a pattern denotes, when the pattern is made of pattern
    characters and of escaped syntax characters only.  Other patterns
    are not read here. *)
Fixpoint pattern_literal (p : jsstring) : option jsstring :=
  match p with
  | [] => Some []
  | c :: p' =>
      if (c =? 92)%N then
        match p' with
        | d :: p'' =>
            if is_syntax_character d then option_map (cons d) (pattern_literal p'')
            else None
        | [] => None
        end
      else if is_syntax_character c then None
      else option_map (cons c) (pattern_literal p')
  end.

End Str.

(* ================================================================= *)
(** * The tools of the two skills programs *)

Module Tools.

(** What the tools use of Node's [path]: [path.isAbsolute(p)] and
    [path.join(__dirname, "..", p)]. *)
Record PathModule := {
  isAbsolute : jsstring -> bool;
  join_root : jsstring -> jsstring
}.

(** What the tools use of Node's [fs], over some type of file systems:
    both calls return or throw an error with a message. *)
Record FsModule (FS : Type) := {
  readFileSync : FS -> jsstring -> jsstring + jsstring;
  writeFileSync : FS -> jsstring -> jsstring -> jsstring + FS
}.

(** [error.message] *)
Definition exn_message (e : exn) : jsstring :=
  match e with
  | Error message => message
  | TypeError reading =>
      js "Cannot read properties of undefined (reading '" ++ reading ++ js "')"
  | GraphRecursionError => js "Recursion limit reached"
  end.

Section WithFs.

Variable FS : Type.
Variable fs_module : FsModule FS.
Variable path_module : PathModule.

Definition read_file (p : jsstring) : M FS jsstring :=
  fun fs =>
    (match readFileSync fs_module fs p with
     | inr content => inr content
     | inl msg => inl (Error msg)
     end, fs).

Definition write_file (p content : jsstring) : M FS unit :=
  fun fs =>
    match writeFileSync fs_module fs p content with
    | inr fs' => (inr tt, fs')
    | inl msg => (inl (Error msg), fs)
    end.

(** [path.isAbsolute(file_path) ? file_path : path.join(__dirname, "..", file_path)] *)
Definition absolutePath_of (file_path : jsstring) : jsstring :=
  if isAbsolute path_module file_path then file_path
  else join_root path_module file_path.

(** [catch (error: any) { return `Error: ${error.message}`; }] *)
Definition or_error_text (c : M FS jsstring) : M FS jsstring :=
  try_catch c (fun error => ret (js "Error: " ++ exn_message error)).

(* ----------------------------------------------------------------- *)
(** *** [read_file] of [index-with-claude-tools.ts] *)

(** [offset || 0] *)
Definition or_zero (n : option N) : N :=
  match n with
  | Some n => n
  | None => 0%N
  end.

(** The truth value of an optional number in a condition. *)
Definition truthy (n : option N) : bool :=
  match n with
  | Some n => negb (n =? 0)%N
  | None => false
  end.

(** The text the tool returns for a file content.  [offset] and [limit]
    are taken to be non-negative integers. *)
Definition read_lines (content : jsstring) (offset limit : option N) : jsstring :=
  let lines := Str.split LF content in
  let startLine := or_zero offset in
  let endLine :=
    if truthy limit then (startLine + or_zero limit)%N
    else N.min (startLine + 2000) (N.of_nat (length lines)) in
  join LF
    (Str.mapi
       (fun line idx =>
          Str.number_to_string (startLine + N.of_nat idx + 1) ++ Prompts.arrow ++ line)
       (Str.slice startLine endLine lines)).

Definition readTool (file_path : jsstring) (offset limit : option N)
  : M FS jsstring :=
  or_error_text
    (let absolutePath := absolutePath_of file_path in
     content <- read_file absolutePath ;;
     ret (read_lines content offset limit)).

(* ----------------------------------------------------------------- *)
(** *** [write_file] *)

Definition writeTool (file_path content : jsstring) : M FS jsstring :=
  or_error_text
    (let absolutePath := absolutePath_of file_path in
     write_file absolutePath content ;;;
     ret (js "File written: " ++ file_path)).

(* ----------------------------------------------------------------- *)
(** *** [edit_file] *)

(** [old_string.replace(/[.*+?^${}()|[\]\\]/g, '\\$&')] *)
Definition escapedOldString (old_string : jsstring) : jsstring :=
  flat_map (fun c => if Str.is_syntax_character c then [92%N; c] else [c])
           old_string.

(** [(content.match(new RegExp(escapedOldString, 'g')) || []).length];
    a pattern that is not read throws. *)
Definition match_count (pattern content : jsstring) : M FS nat :=
  match Str.pattern_literal pattern with
  | Some lit => ret (Str.count_from lit 0 content)
  | None => throw (Error (js "Invalid regular expression"))
  end.

(** [content.split(old_string).length - 1] *)
Definition occurrences_of (old_string content : jsstring) : Z :=
  (Z.of_nat (length (Str.split old_string content)) - 1)%Z.

Definition editTool (file_path old_string new_string : jsstring)
  (replace_all : bool) : M FS jsstring :=
  or_error_text
    (if str_eqb old_string new_string then
       ret (js "Error: old_string and new_string are the same")
     else
       let absolutePath := absolutePath_of file_path in
       content <- read_file absolutePath ;;
       if replace_all then
         count <- match_count (escapedOldString old_string) content ;;
         let content := Str.replaceAll old_string new_string content in
         write_file absolutePath content ;;;
         ret (js "Replaced " ++ Str.number_to_string (N.of_nat count) ++
              js " occurrence(s): " ++ file_path)
       else
         let occurrences := occurrences_of old_string content in
         if (occurrences =? 0)%Z then
           ret (js "Error: old_string not found")
         else if (1 <? occurrences)%Z then
           ret (js "Error: old_string found in " ++
                Str.number_to_string (Z.to_N occurrences) ++
                js " places. Must be unique. Include more context or use replace_all=true.")
         else
           let content := Str.replace old_string new_string content in
           write_file absolutePath content ;;;
           ret (js "File edited: " ++ file_path)).

End WithFs.

(* ----------------------------------------------------------------- *)
(** *** [web_fetch] and [fetch_url] *)



(** The text both tools return for a page; [maxLength] is taken to be a
    non-negative integer. *)
Definition truncated (text : jsstring) (maxLength : N) : jsstring :=
  if (maxLength <? N.of_nat (length text))%N then
    Str.substring0 maxLength text ++ LF ++ LF ++
    js "[... Content truncated. Original length: " ++
    Str.number_to_string (N.of_nat (length text)) ++
    js " characters, showing first " ++
    Str.number_to_string maxLength ++ js " characters ...]"
  else text.






(* ----------------------------------------------------------------- *)
(** *** Reading the output of [read_file] back *)

(** The text of an output line after its first arrow. *)
Fixpoint after_arrow (line : jsstring) : jsstring :=
  match line with
  | [] => []
  | c :: t => if (c =? 8594)%N then t else after_arrow t
  end.

(** The text of an output line before its first arrow. *)
Fixpoint before_arrow (line : jsstring) : jsstring :=
  match line with
  | [] => []
  | c :: t => if (c =? 8594)%N then [] else c :: before_arrow t
  end.

(** A template without [$]. *)
Definition dollar_free (s : jsstring) : Prop := Forall (fun c => c <> 36%N) s.

(** A file system in memory: the files by path, the latest first. *)
Definition MemFs := list (jsstring * jsstring).

Definition mem_fs : FsModule MemFs :=
  {| readFileSync := fun fs p =>
       match find (fun e => str_eqb (fst e) p) fs with
       | Some e => inr (snd e)
       | None => inl (js "ENOENT: no such file or directory")
       end;
     writeFileSync := fun fs p content => inr ((p, content) :: fs) |}.

(** Paths from the root are absolute; the project root is [/project]. *)
Definition posix_paths : PathModule :=
  {| isAbsolute := fun p => match p with c :: _ => (c =? 47)%N | [] => false end;
     join_root := fun p => js "/project/" ++ p |}.

End Tools.

(* ================================================================= *)
(** * Readings of texts, descriptors and transcripts *)

Module Shapes.

(** A decimal digit. *)
Definition is_digit (c : N) : Prop := (48 <= c <= 57)%N.

(** A text without line feed. *)
Definition no_LF (s : jsstring) : Prop := Forall (fun c => c <> 10%N) s.

(** The number of lines [read_file] takes: [limit] when it is positive,
    2000 otherwise. *)
Definition line_cap (limit : option N) : N :=
  if Tools.truthy limit then Tools.or_zero limit else 2000%N.

(** A line of the output of [read_file]. *)
Definition label (startLine : N) (line : jsstring) (idx : nat) : jsstring :=
  Str.number_to_string (startLine + N.of_nat idx + 1) ++ Prompts.arrow ++ line.

(** A text without line terminator. *)
Definition single_line (v : jsstring) : Prop :=
  Forall (fun c => is_line_terminator c = false) v.

(** A text without white space at either end. *)
Definition trimmed (v : jsstring) : Prop :=
  (forall c t, v = c :: t -> is_space c = false) /\
  (forall t c, v = t ++ [c] -> is_space c = false).

(** A subdirectory whose instruction file cannot be read. *)
Definition unreadable (backend : FilesystemBackend) (dir : FileInfo) : bool :=
  is_dir dir &&
  match readRaw backend (skillMdPath_of dir) with
  | inr _ => false
  | inl _ => true
  end.

(** The texts of the [HumanMessage]s of a transcript, in order. *)
Fixpoint queries_of {json} (l : list (BaseMessage json)) : list jsstring :=
  match l with
  | [] => []
  | HumanMessage q :: l' => q :: queries_of l'
  | _ :: l' => queries_of l'
  end.

(** A message the graph appends: an answer or a tool result. *)
Definition by_graph {json} (m : BaseMessage json) : bool :=
  match m with
  | AIMessage _ _ | ToolMessage _ _ => true
  | _ => false
  end.

(** The transcript as it stands before each [AIMessage] of [more],
    where [pre] is what precedes [more]. *)
Fixpoint answered_from {json} (pre more : list (BaseMessage json))
  : list (list (BaseMessage json)) :=
  match more with
  | [] => []
  | m :: more' =>
      (if is_ai m then [pre] else []) ++ answered_from (pre ++ [m]) more'
  end.

End Shapes.
Export Shapes.

(* ================================================================= *)
(** * Instruction files of the scenarios *)

Module Files.

Definition foo_dir : FileInfo := {| path := js "/skills/foo/"; is_dir := true |}.
Definition bar_dir : FileInfo := {| path := js "/skills/bar/"; is_dir := true |}.

(** Scenario A of the spec: one skill, one subdirectory without
    instruction file. *)
Definition scenario_a : FilesystemBackend :=
  {| lsInfo := fun _ => inr [foo_dir; bar_dir];
     readRaw := fun p =>
       if str_eqb p (js "/skills/foo/SKILL.md")
       then inr {| content := [js "---"; js "name: foo";
                               js "description: Foo tool"; js "---"; js "Do X"] |}
       else inl (js "ENOENT") |}.

(** A header without [description]. *)
Definition no_description : FilesystemBackend :=
  {| lsInfo := fun _ => inr [foo_dir];
     readRaw := fun _ =>
       inr {| content := [js "---"; js "name: foo"; js "---"; js "Do X"] |} |}.

(** A body between blank lines. *)
Definition padded_body : list jsstring :=
  [js "---"; js "name: foo"; js "description: Foo tool"; js "---";
   []; js "Do X"; []].


(** The notes of a project, in memory. *)
Definition notes : Tools.MemFs := [(js "/project/notes.txt", js "alpha beta")].

(** A file of two code units. *)
Definition two_units : Tools.MemFs := [(js "/project/ab.txt", js "ab")].


(** A header without [description] in one subdirectory, no instruction
    file in the other. *)
Definition key_missing_beside_unreadable : FilesystemBackend :=
  {| lsInfo := fun _ => inr [foo_dir; bar_dir];
     readRaw := fun p =>
       if str_eqb p (js "/skills/foo/SKILL.md")
       then inr {| content := [js "---"; js "name: foo"; js "---"; js "Do X"] |}
       else inl (js "ENOENT") |}.


End Files.

(* ================================================================= *)
(** * Scenarios *)

Module Scenario.

(** Arguments are JSON strings here. *)
Definition search_call : ToolCall jsstring :=
  {| tc_name := js "search"; tc_args := [(js "q", js "X")]; tc_id := js "1" |}.

(** A model that asks for one search, then answers. *)
Definition scripted_model : ChatModel jsstring :=
  {| respond := fun log _ =>
       match log with
       | [] => inr ([], Some [search_call])
       | _ :: _ => inr (js "done", None)
       end |}.

Definition search_registry : list (Tool jsstring) :=
  [ {| tool_name := js "search"; func := fun _ => inr (js "result text") |} ].

(** A model that never stops asking for a search. *)
Definition eager_model : ChatModel jsstring :=
  {| respond := fun _ _ => inr ([], Some [search_call]) |}.

Definition no_model : Config jsstring := {| configurable := None |}.

End Scenario.

Ltac split3 := split; [| split].

(* ================================================================= *)
(** * Properties of the turn loop *)

Section EngineFacts.

Context {json : Type}.
Implicit Types (st : State json) (log : Log json) (w : Workflow json).
Implicit Types (t msgs upd : list (BaseMessage json)).

(** *** Unfolding one node execution *)

Lemma run_agent_step w fuel st log :
  run w (S fuel) agent st log =
  match agent_node w st log with
  | (inr upd, log') =>
      match shouldContinue (apply_update st upd) with
      | inr Route_tools => run w fuel tools (apply_update st upd) log'
      | inr Route_end => (inr (apply_update st upd), log')
      | inl e => (inl e, log')
      end
  | (inl e, log') => (inl e, log')
  end.
Proof.
  simpl. unfold bind.
  destruct (agent_node w st log) as [[e | upd] log']; [reflexivity |].
  destruct (shouldContinue (apply_update st upd)) as [e | [|]]; reflexivity.
Qed.

Lemma run_tools_step w fuel st log :
  run w (S fuel) tools st log =
  match tools_node w st log with
  | (inr upd, log') => run w fuel agent (apply_update st upd) log'
  | (inl e, log') => (inl e, log')
  end.
Proof.
  simpl. unfold bind.
  destruct (tools_node w st log) as [[e | upd] log']; reflexivity.
Qed.

Lemma session_step w limit saved query later log :
  session w limit saved (query :: later) log =
  match invoke w limit saved [HumanMessage query] log with
  | (inr result, log') => session w limit (messages result) later log'
  | (inl e, log') => (inl e, log')
  end.
Proof.
  simpl. unfold bind.
  destruct (invoke w limit saved [HumanMessage query] log) as [[e | r] log'];
    reflexivity.
Qed.

(** *** The last message *)

Lemma last_message_snoc msgs (m : BaseMessage json) :
  last_message (msgs ++ [m]) = Some m.
Proof.
  unfold last_message. rewrite length_app. simpl.
  replace (length msgs + 1 - 1) with (length msgs) by lia.
  rewrite nth_error_app2 by lia.
  now rewrite Nat.sub_diag.
Qed.

Lemma last_message_nil : last_message (@nil (BaseMessage json)) = None.
Proof. reflexivity. Qed.

Lemma shouldContinue_snoc msgs c tcs :
  shouldContinue {| messages := msgs ++ [AIMessage c tcs] |} =
  inr (match calls tcs with [] => Route_end | _ :: _ => Route_tools end).
Proof.
  unfold shouldContinue. cbn [messages].
  rewrite last_message_snoc. cbn [tool_calls_of].
  destruct tcs as [[| tc more] |]; reflexivity.
Qed.

Lemma shouldContinue_defined msgs (m : BaseMessage json) :
  exists r, shouldContinue {| messages := msgs ++ [m] |} = inr r.
Proof.
  unfold shouldContinue. cbn [messages]. rewrite last_message_snoc.
  destruct (tool_calls_of m) as [tcs |]; [| eauto].
  destruct (0 <? length tcs); eauto.
Qed.

(** *** What the agent nodes do *)

Lemma model_invoke_inv (m : ChatModel json) input log r log' :
  model_invoke m input log = (r, log') ->
  log' = log ++ [input] /\
  ((exists c tcs, respond m log input = inr (c, tcs) /\ r = inr (AIMessage c tcs))
   \/ (exists msg, respond m log input = inl msg /\ r = inl (Error msg))).
Proof.
  unfold model_invoke. intros H.
  destruct (respond m log input) as [msg | [c tcs]]; inversion H; subst;
    split; eauto.
Qed.

Lemma graph_agent_inv (m : ChatModel json) st log r log' :
  graph_agent m st log = (r, log') ->
  log' = log ++ [messages st] /\
  ((exists c tcs, r = inr [AIMessage c tcs]) \/ (exists msg, r = inl (Error msg))).
Proof.
  unfold graph_agent, bind. intros H.
  destruct (model_invoke m (messages st) log) as [[e | a] l] eqn:E.
  - apply model_invoke_inv in E. destruct E as [-> [(c & tcs & _ & Hr) | (msg & _ & Hr)]];
      inversion Hr; subst; inversion H; subst; eauto.
  - apply model_invoke_inv in E. destruct E as [-> [(c & tcs & _ & Hr) | (msg & _ & Hr)]];
      inversion Hr; subst; inversion H; subst; eauto.
Qed.

Lemma skills_agent_inv (m : ChatModel json) prompt st log r log' :
  skills_agent m prompt st log = (r, log') ->
  log' = log ++ [if length (messages st) =? 1
                 then SystemMessage prompt :: messages st
                 else messages st] /\
  ((exists c tcs, r = inr [AIMessage c tcs]) \/ (exists msg, r = inl (Error msg))).
Proof.
  unfold skills_agent, bind. intros H.
  destruct (length (messages st) =? 1).
  - destruct (model_invoke m (SystemMessage prompt :: messages st) log)
      as [[e | a] l] eqn:E;
    apply model_invoke_inv in E;
    destruct E as [-> [(c & tcs & _ & Hr) | (msg & _ & Hr)]];
    inversion Hr; subst; inversion H; subst; eauto.
  - destruct (model_invoke m (messages st) log) as [[e | a] l] eqn:E;
    apply model_invoke_inv in E;
    destruct E as [-> [(c & tcs & _ & Hr) | (msg & _ & Hr)]];
    inversion Hr; subst; inversion H; subst; eauto.
Qed.

Lemma graph_app_appends_one_ai (m : ChatModel json) registry :
  appends_one_ai (graph_app m registry).
Proof.
  intros st log upd log' H. cbn [graph_app agent_node] in H.
  apply graph_agent_inv in H.
  destruct H as [_ [(c & tcs & Hr) | (msg & Hr)]]; inversion Hr; eauto.
Qed.

Lemma skills_app_appends_one_ai (m : ChatModel json) prompt registry :
  appends_one_ai (skills_app m prompt registry).
Proof.
  intros st log upd log' H. cbn [skills_app agent_node] in H.
  apply skills_agent_inv in H.
  destruct H as [_ [(c & tcs & Hr) | (msg & Hr)]]; inversion Hr; eauto.
Qed.

Lemma toolNode_snoc registry msgs c tcs log :
  toolNode registry {| messages := msgs ++ [AIMessage c tcs] |} log =
  (inr (map (dispatch registry) (calls tcs)), log).
Proof.
  unfold toolNode. cbn [messages]. now rewrite last_message_snoc.
Qed.

End EngineFacts.

(* ================================================================= *)
(** * Tool calls and their results *)

Section Matching.

Context {json : Type}.
Implicit Types (st : State json) (log : Log json) (w : Workflow json).
Implicit Types (t msgs post : list (BaseMessage json)).

Lemma result_ids_until_snoc_human post q :
  result_ids (until_next_ai (post ++ [HumanMessage q])) =
  result_ids (until_next_ai post).
Proof.
  induction post as [| m post IH]; [reflexivity |].
  destruct m; simpl; try assumption; try reflexivity.
  now rewrite IH.
Qed.

Lemma until_next_ai_app_ai post c tcs more :
  until_next_ai (post ++ AIMessage c tcs :: more) = until_next_ai post.
Proof.
  induction post as [| m post IH]; [reflexivity |].
  destruct m; simpl; try reflexivity; now rewrite IH.
Qed.

Lemma matched_snoc_human t q :
  matched t -> matched (t ++ [HumanMessage q]).
Proof.
  induction t as [| m t IH]; simpl; [trivial |].
  destruct m; simpl; auto.
  intros [Hids Ht]. split; [| auto].
  now rewrite result_ids_until_snoc_human.
Qed.

Lemma matched_app_ai t c tcs more :
  matched t -> matched (AIMessage c tcs :: more) ->
  matched (t ++ AIMessage c tcs :: more).
Proof.
  intros Ht Hm.
  induction t as [| m t IH]; [exact Hm |].
  destruct m; simpl in *; auto.
  destruct Ht as [Hids Ht]. split; [| auto].
  now rewrite until_next_ai_app_ai.
Qed.

Lemma dispatch_result registry (tc : ToolCall json) :
  exists text, dispatch registry tc = ToolMessage text (tc_id tc).
Proof.
  unfold dispatch.
  destruct (find _ registry) as [tool |]; [| eauto].
  destruct (func tool (tc_args tc)); eauto.
Qed.

Lemma dispatched_results registry (l : list (ToolCall json)) :
  until_next_ai (map (dispatch registry) l) = map (dispatch registry) l /\
  result_ids (map (dispatch registry) l) = map (@tc_id json) l /\
  matched (map (dispatch registry) l).
Proof.
  induction l as [| tc l (Hu & Hr & Hm)]; [now simpl |].
  destruct (dispatch_result registry tc) as [text Hd].
  simpl. rewrite Hd. simpl. rewrite Hu, Hr. auto.
Qed.

(** A finished turn: the answer and the results of its calls. *)
Lemma matched_turn registry t c tcs :
  matched t ->
  matched (t ++ [AIMessage c tcs] ++ map (dispatch registry) (calls tcs)).
Proof.
  intros Ht. apply matched_app_ai; [assumption |].
  destruct (dispatched_results registry (calls tcs)) as (Hu & Hr & Hm).
  simpl. rewrite Hu, Hr. auto.
Qed.

(** A final answer: no calls, nothing to match. *)
Lemma matched_final t c tcs :
  matched t -> calls tcs = [] -> matched (t ++ [AIMessage c tcs]).
Proof.
  intros Ht Hc. apply matched_app_ai; [assumption |].
  simpl. unfold call_ids. now rewrite Hc.
Qed.

Lemma run_matched w registry :
  appends_one_ai w ->
  tools_node w = toolNode registry ->
  forall fuel node st log st' log',
    node_invariant node st ->
    run w fuel node st log = (inr st', log') ->
    matched (messages st').
Proof.
  intros Hagent Htools. unfold appends_one_ai in Hagent.
  induction fuel as [| fuel IH]; intros node st log st' log' Hinv Hrun.
  - discriminate Hrun.
  - destruct node.
    + rewrite run_agent_step in Hrun.
      destruct (agent_node w st log) as [[e | upd] log1] eqn:Ea;
        [discriminate |].
      destruct (Hagent _ _ _ _ Ea) as (c & tcs & ->).
      unfold apply_update, reducer in Hrun.
      rewrite shouldContinue_snoc in Hrun.
      destruct (calls tcs) as [| tc more] eqn:Ec.
      * inversion Hrun; subst. cbn [messages].
        now apply matched_final.
      * eapply IH; [| exact Hrun].
        cbn [node_invariant messages]. eauto.
    + rewrite run_tools_step, Htools in Hrun.
      destruct Hinv as (t & c & tcs & Hst & Ht).
      destruct st as [msgs]. cbn [messages] in Hst. subst msgs.
      rewrite toolNode_snoc in Hrun.
      eapply IH; [| exact Hrun].
      cbn [node_invariant apply_update messages]. unfold reducer.
      rewrite <- app_assoc. now apply matched_turn.
Qed.

Lemma session_matched w registry limit :
  appends_one_ai w ->
  tools_node w = toolNode registry ->
  forall queries saved log t log',
    matched saved ->
    session w limit saved queries log = (inr t, log') ->
    matched t.
Proof.
  intros Hagent Htools.
  induction queries as [| q later IH]; intros saved log t log' Hs Hrun.
  - inversion Hrun; now subst.
  - rewrite session_step in Hrun.
    destruct (invoke w limit saved [HumanMessage q] log)
      as [[e | result] log1] eqn:Ei; [discriminate |].
    eapply IH; [| exact Hrun].
    unfold invoke in Ei.
    eapply run_matched; eauto.
    cbn [node_invariant messages]. unfold reducer.
    now apply matched_snoc_human.
Qed.

(** [matched], read at any [AIMessage] of the transcript. *)
Lemma matched_at t :
  matched t ->
  forall pre c tcs post,
    t = pre ++ AIMessage c tcs :: post ->
    result_ids (until_next_ai post) = call_ids tcs.
Proof.
  intros Ht pre. revert t Ht.
  induction pre as [| m pre IH]; intros t Ht c tcs post ->; simpl in Ht.
  - now destruct Ht.
  - apply (IH (pre ++ AIMessage c tcs :: post)) with (c := c); [| reflexivity].
    destruct m; simpl in Ht; try assumption. now destruct Ht.
Qed.

End Matching.

(* ================================================================= *)
(** * The skills prompt *)

Section SkillsPrompt.

Context {json : Type}.
Implicit Types (st : State json) (log : Log json).
Implicit Types (t msgs inp : list (BaseMessage json)).

Variable modelWithTools : ChatModel json.
Variable skillsPrompt : jsstring.
Variable registry : list (Tool json).

Let workflow := skills_app modelWithTools skillsPrompt registry.

Lemma past_first_turn_app msgs more :
  past_first_turn msgs -> system_free more -> past_first_turn (msgs ++ more).
Proof.
  intros (Hs & Ha & Hl) Hm. split3.
  - now apply Forall_app.
  - rewrite existsb_app, Ha. reflexivity.
  - rewrite length_app. lia.
Qed.

Lemma dispatched_system_free (l : list (ToolCall json)) :
  system_free (map (dispatch registry) l).
Proof.
  induction l as [| tc l IH]; [constructor |].
  simpl. constructor; [| exact IH].
  destruct (dispatch_result registry tc) as [text ->]. reflexivity.
Qed.

Lemma toolNode_inv st log r log' :
  toolNode registry st log = (r, log') ->
  log' = log /\
  ((exists l, r = inr (map (dispatch registry) l)) \/ (exists msg, r = inl (Error msg))).
Proof.
  unfold toolNode. intros H.
  destruct (last_message (messages st)) as [[c | c | c tcs | c i] |];
    inversion H; subst; split; eauto.
Qed.

(** From a transcript past the first turn, every model invocation of a
    run receives the transcript as it stands, and the run ends past the
    first turn. *)
Lemma skills_run_later fuel :
  forall node st log r log',
    past_first_turn (messages st) ->
    run workflow fuel node st log = (r, log') ->
    exists inputs,
      log' = log ++ inputs /\
      Forall past_first_turn inputs /\
      (forall st', r = inr st' -> past_first_turn (messages st')).
Proof.
  induction fuel as [| fuel IH]; intros node st log r log' Hst Hrun.
  - inversion Hrun; subst. exists []. rewrite app_nil_r.
    split3; [reflexivity | constructor | discriminate].
  - destruct node.
    + rewrite run_agent_step in Hrun.
      destruct (agent_node workflow st log) as [[e | upd] log1] eqn:Ea.
      * inversion Hrun; subst.
        apply skills_agent_inv in Ea. destruct Ea as [-> _].
        destruct Hst as (Hs & Ha & Hl).
        replace (length (messages st) =? 1) with false
          by (symmetry; apply Nat.eqb_neq; lia).
        exists [messages st].
        split3; [reflexivity | repeat constructor; assumption | discriminate].
      * apply skills_agent_inv in Ea.
        destruct Ea as [-> [(c & tcs & Hr) | (msg & Hr)]]; [| discriminate].
        inversion Hr; subst upd; clear Hr.
        assert (Hlen : (length (messages st) =? 1) = false)
          by (apply Nat.eqb_neq; destruct Hst as (_ & _ & Hl); lia).
        rewrite Hlen in Hrun.
        assert (Hnext : past_first_turn (messages st ++ [AIMessage c tcs])).
        { apply past_first_turn_app; [assumption |]. repeat constructor. }
        unfold apply_update, reducer in Hrun.
        rewrite shouldContinue_snoc in Hrun.
        destruct (calls tcs) as [| tc more].
        -- inversion Hrun; subst.
           exists [messages st]. split3; [reflexivity | |].
           ++ repeat constructor; apply Hst.
           ++ intros st' E. inversion E; subst. exact Hnext.
        -- apply IH in Hrun; [| exact Hnext].
           destruct Hrun as (inputs & -> & Hin & Hres).
           exists (messages st :: inputs). rewrite <- app_assoc.
           split3; [reflexivity | constructor; assumption | assumption].
    + rewrite run_tools_step in Hrun.
      destruct (tools_node workflow st log) as [[e | upd] log1] eqn:Et;
        cbn [skills_app tools_node]; unfold workflow in Et;
        apply toolNode_inv in Et;
        destruct Et as [-> [(l & Hr) | (msg & Hr)]];
        inversion Hr; subst; clear Hr.
      * inversion Hrun; subst. exists []. rewrite app_nil_r.
        split3; [reflexivity | constructor | discriminate].
      * apply IH in Hrun; [exact Hrun |].
        cbn [apply_update messages]. unfold reducer.
        apply past_first_turn_app; [assumption |].
        apply dispatched_system_free.
Qed.

Lemma skills_session_later limit :
  forall queries saved log r log',
    past_first_turn saved ->
    session workflow limit saved queries log = (r, log') ->
    exists inputs,
      log' = log ++ inputs /\
      Forall past_first_turn inputs /\
      (forall t, r = inr t -> past_first_turn t).
Proof.
  induction queries as [| q later IH]; intros saved log r log' Hs Hrun.
  - inversion Hrun; subst. exists []. rewrite app_nil_r.
    split3; [reflexivity | constructor |].
    intros t E. now inversion E; subst.
  - rewrite session_step in Hrun.
    destruct (invoke workflow limit saved [HumanMessage q] log)
      as [[e | result] log1] eqn:Ei;
      unfold invoke in Ei;
      apply skills_run_later in Ei;
      try (cbn [messages]; unfold reducer;
           apply past_first_turn_app; [assumption | repeat constructor]);
      destruct Ei as (inputs & -> & Hin & Hres).
    + inversion Hrun; subst. exists inputs.
      split3; [reflexivity | assumption | discriminate].
    + apply IH in Hrun; [| now apply Hres].
      destruct Hrun as (inputs' & -> & Hin' & Hres').
      exists (inputs ++ inputs'). rewrite <- app_assoc.
      split3; [reflexivity | now apply Forall_app | assumption].
Qed.

(** The first invocation of a Session: the first model input is the
    prompt followed by the query; what follows is past the first turn. *)
Lemma skills_first_invoke fuel query log r log' :
  invoke workflow (S fuel) [] [HumanMessage query] log = (r, log') ->
  exists inputs,
    log' = log ++ [SystemMessage skillsPrompt; HumanMessage query] :: inputs /\
    Forall past_first_turn inputs /\
    (forall st', r = inr st' -> past_first_turn (messages st')).
Proof.
  unfold invoke, reducer. cbn [List.app]. intros Hrun.
  rewrite run_agent_step in Hrun.
  destruct (agent_node workflow {| messages := [HumanMessage query] |} log)
    as [[e | upd] log1] eqn:Ea;
    apply skills_agent_inv in Ea; cbn [messages length Nat.eqb] in Ea;
    destruct Ea as [-> [(c & tcs & Hr) | (msg & Hr)]];
    inversion Hr; subst; clear Hr.
  - inversion Hrun; subst. exists [].
    split3; [reflexivity | constructor | discriminate].
  - assert (Hnext : past_first_turn [HumanMessage query; AIMessage c tcs]).
    { split3; [repeat constructor | reflexivity | simpl; lia]. }
    unfold apply_update, reducer in Hrun. cbn [messages] in Hrun.
    rewrite shouldContinue_snoc in Hrun.
    destruct (calls tcs) as [| tc more].
    + inversion Hrun; subst. exists [].
      split3; [reflexivity | constructor |].
      intros st' E. inversion E; subst. exact Hnext.
    + apply skills_run_later in Hrun; [| exact Hnext].
      destruct Hrun as (inputs & -> & Hin & Hres).
      exists inputs. rewrite <- app_assoc.
      split3; [reflexivity | assumption | assumption].
Qed.

Lemma skills_session_first fuel query later log r log' :
  session workflow (S fuel) [] (query :: later) log = (r, log') ->
  exists inputs,
    log' = log ++ [SystemMessage skillsPrompt; HumanMessage query] :: inputs /\
    Forall past_first_turn inputs /\
    (forall t, r = inr t -> past_first_turn t).
Proof.
  intros Hrun. rewrite session_step in Hrun.
  destruct (invoke workflow (S fuel) [] [HumanMessage query] log)
    as [[e | result] log1] eqn:Ei;
    apply skills_first_invoke in Ei;
    destruct Ei as (inputs & -> & Hin & Hres).
  - inversion Hrun; subst. exists inputs.
    split3; [reflexivity | assumption | discriminate].
  - apply skills_session_later in Hrun; [| now apply Hres].
    destruct Hrun as (inputs' & -> & Hin' & Hres').
    exists (inputs ++ inputs'). rewrite <- app_assoc.
    split3; [reflexivity | now apply Forall_app | assumption].
Qed.

End SkillsPrompt.

(* ================================================================= *)
(** * Faults of a run *)

Section EngineClaims.

Context {json : Type}.

Lemma run_no_type_error (w : Workflow json) :
  (forall st log e log', agent_node w st log = (inl e, log') -> exists msg, e = Error msg) ->
  (forall st log e log', tools_node w st log = (inl e, log') -> exists msg, e = Error msg) ->
  appends_one_ai w ->
  forall fuel node st log reading log',
    run w fuel node st log <> (inl (TypeError reading), log').
Proof.
  intros Ha Ht Hone. unfold appends_one_ai in Hone.
  induction fuel as [| fuel IH]; intros node st log reading log' Hrun.
  - discriminate Hrun.
  - destruct node.
    + rewrite run_agent_step in Hrun.
      destruct (agent_node w st log) as [[e | upd] log1] eqn:Ea.
      * destruct (Ha _ _ _ _ Ea) as [msg ->]. discriminate Hrun.
      * destruct (Hone _ _ _ _ Ea) as (c & tcs & ->).
        unfold apply_update, reducer in Hrun.
        rewrite shouldContinue_snoc in Hrun.
        destruct (calls tcs); [discriminate Hrun |].
        exact (IH _ _ _ _ _ Hrun).
    + rewrite run_tools_step in Hrun.
      destruct (tools_node w st log) as [[e | upd] log1] eqn:Et.
      * destruct (Ht _ _ _ _ Et) as [msg ->]. discriminate Hrun.
      * exact (IH _ _ _ _ _ Hrun).
Qed.

Lemma toolNode_throws_error registry (st : State json) log e log' :
  toolNode registry st log = (inl e, log') -> exists msg, e = Error msg.
Proof.
  intros H. apply toolNode_inv in H.
  destruct H as [_ [(l & Hr) | (msg & Hr)]]; inversion Hr; eauto.
Qed.

End EngineClaims.

(* ================================================================= *)
(** * The first-turn test *)

Section PromptFacts.

Context {json : Type}.

(** Past the first turn the prompt is not there and the spec's
    condition does not hold either. *)
Lemma past_first_turn_not_first skillsPrompt (inp : list (BaseMessage json)) :
  past_first_turn inp -> (injected skillsPrompt inp <-> first_turn inp).
Proof.
  intros (Hs & Ha & _). split.
  - unfold injected. intros Hi. destruct inp as [| m inp]; [discriminate |].
    inversion Hi; subst. inversion Hs; subst. discriminate.
  - intros [_ Hnone]. exfalso.
    apply existsb_exists in Ha. destruct Ha as (m & Hin & Hai).
    assert (Hf : In m (filter is_ai inp)) by (apply filter_In; auto).
    destruct (filter is_ai inp); [contradiction | discriminate].
Qed.

Lemma past_first_turn_system_free (inp : list (BaseMessage json)) :
  past_first_turn inp -> system_free inp.
Proof. now intros (Hs & _). Qed.

End PromptFacts.

(* ================================================================= *)
(** * Facts on the matcher *)

Section RegexFacts.

Implicit Types (s l pre : jsstring) (r : list node).

Lemma code_eqb_eq a b : code_eqb a b = true <-> a = b.
Proof. apply N.eqb_eq. Qed.

Lemma strip_prefix_app l s : strip_prefix l (l ++ s) = Some s.
Proof.
  induction l as [| x l IH]; [reflexivity |].
  simpl. unfold code_eqb. now rewrite N.eqb_refl.
Qed.

Lemma strip_prefix_Some l : forall s s', strip_prefix l s = Some s' -> s = l ++ s'.
Proof.
  induction l as [| x l IH]; intros s s' H; simpl in H.
  - now inversion H.
  - destruct s as [| y s]; [discriminate |].
    destruct (code_eqb x y) eqn:E; [| discriminate].
    apply code_eqb_eq in E. subst y. simpl. f_equal. now apply IH.
Qed.

(** A longer literal matches only where its beginning does. *)
Lemma strip_prefix_longer l l' : forall s,
  strip_prefix l s = None -> strip_prefix (l ++ l') s = None.
Proof.
  induction l as [| x l IH]; intros s H; simpl in *.
  - discriminate.
  - destruct s as [| y s]; [reflexivity |].
    destruct (code_eqb x y); [now apply IH | reflexivity].
Qed.

Lemma skipn_length_app {A} (a b : list A) : skipn (length a) (a ++ b) = b.
Proof. induction a; simpl; auto. Qed.

Lemma firstn_length_app {A} (a b : list A) : firstn (length a) (a ++ b) = a.
Proof. induction a; simpl; [reflexivity | now f_equal]. Qed.

Lemma is_any_true c : is_any c = true.
Proof. unfold is_any. apply orb_negb_r. Qed.

Lemma run_length_any s : run_length is_any s = length s.
Proof.
  induction s as [| c s IH]; [reflexivity |].
  simpl. rewrite is_any_true. now f_equal.
Qed.

Lemma match_here_lit l r s :
  match_here (Lit l :: r) s =
  match strip_prefix l s with Some s' => match_here r s' | None => None end.
Proof. reflexivity. Qed.

Lemma match_here_rep q cls min cap r s :
  match_here (Rep q cls min cap :: r) s =
  first_some (candidate r cap s) (counts q min (run_length cls s)).
Proof. reflexivity. Qed.

Lemma lazy_candidates_scan r cap : forall s pre,
  first_some (candidate r cap (pre ++ s)) (seq (length pre) (S (length s))) =
  scan r cap pre s.
Proof.
  induction s as [| c s IH]; intros pre.
  - simpl. unfold candidate.
    rewrite skipn_length_app, firstn_length_app.
    destruct (match_here r []) as [[gs s'] |]; reflexivity.
  - cbn [length seq first_some scan].
    unfold candidate at 1.
    rewrite skipn_length_app, firstn_length_app.
    destruct (match_here r (c :: s)) as [[gs s'] |]; [reflexivity |].
    specialize (IH (pre ++ [c])).
    rewrite <- app_assoc, length_app in IH. simpl in IH.
    rewrite Nat.add_1_r in IH. exact IH.
Qed.

Lemma match_lazy_any_plus r cap c s :
  match_here (Rep Lazy is_any 1 cap :: r) (c :: s) = scan r cap [c] s.
Proof.
  rewrite match_here_rep, run_length_any. unfold counts. cbn [length].
  replace (S (S (length s)) - 1) with (S (length s)) by lia.
  exact (lazy_candidates_scan r cap s [c]).
Qed.

Lemma match_lazy_any_plus_nil r cap :
  match_here (Rep Lazy is_any 1 cap :: r) [] = None.
Proof. reflexivity. Qed.

Lemma scan_skip r cap : forall a pre s,
  (forall a1 c a2, a = a1 ++ c :: a2 -> match_here r (c :: a2 ++ s) = None) ->
  scan r cap pre (a ++ s) = scan r cap (pre ++ a) s.
Proof.
  induction a as [| c a IH]; intros pre s Hnone.
  - now rewrite app_nil_r.
  - cbn [app scan]. rewrite (Hnone [] c a eq_refl).
    rewrite IH.
    + now rewrite <- app_assoc.
    + intros a1 c' a2 E. apply (Hnone (c :: a1) c' a2). now rewrite E.
Qed.

Lemma scan_hit r cap pre s gs s' :
  match_here r s = Some (gs, s') ->
  scan r cap pre s = Some (if cap then pre :: gs else gs, s').
Proof. intros H. destruct s; simpl; now rewrite H. Qed.



Lemma match_lit l s :
  match_here [Lit l] s =
  match strip_prefix l s with Some s' => Some ([], s') | None => None end.
Proof. reflexivity. Qed.

(** The first count a greedy repetition tries is the longest. *)
Lemma greedy_counts min n :
  min <= n -> counts Greedy min n = n :: rev (seq min (n - min)).
Proof.
  intros H. unfold counts.
  replace (S n - min) with (S (n - min)) by lia.
  rewrite seq_S, rev_app_distr. simpl. f_equal. lia.
Qed.

Lemma run_length_app_stop cls : forall v tail,
  Forall (fun c => cls c = true) v ->
  match tail with [] => True | c :: _ => cls c = false end ->
  run_length cls (v ++ tail) = length v.
Proof.
  induction v as [| c v IH]; intros tail Hv Ht.
  - destruct tail as [| c tail]; [reflexivity |]. simpl. now rewrite Ht.
  - inversion Hv; subst. simpl. rewrite H1. f_equal. now apply IH.
Qed.

(** A search passes over a place where its leading literal fails. *)
Lemma search_skip_one key r pre c s :
  strip_prefix key (c :: s) = None ->
  search (Lit key :: r) pre (c :: s) = search (Lit key :: r) (pre ++ [c]) s.
Proof. intros H. cbn [search match_here]. now rewrite H. Qed.


Lemma search_hit r pre s gs s' :
  match_here r s = Some (gs, s') ->
  search r pre s = Some {| before := pre; groups := gs; rest := s' |}.
Proof. intros H. destruct s; simpl; now rewrite H. Qed.

(** What a successful search returns: the leftmost place where the
    nodes match. *)
Lemma search_Some r : forall s pre m,
  search r pre s = Some m ->
  exists a b,
    s = a ++ b /\ before m = pre ++ a /\
    match_here r b = Some (groups m, rest m) /\
    (forall a1 a2, a = a1 ++ a2 -> a2 <> [] -> match_here r (a2 ++ b) = None).
Proof.
  induction s as [| c s IH]; intros pre m H; simpl in H.
  - destruct (match_here r []) as [[gs0 s0] |] eqn:E; [| discriminate].
    inversion H; subst. exists [], []. simpl. rewrite app_nil_r.
    repeat split; auto.
    intros a1 a2 Ea Hne. destruct a1, a2; try discriminate. contradiction.
  - destruct (match_here r (c :: s)) as [[gs0 s0] |] eqn:E.
    + inversion H; subst. exists [], (c :: s). simpl. rewrite app_nil_r.
      repeat split; auto.
      intros a1 a2 Ea Hne. destruct a1, a2; try discriminate. contradiction.
    + apply IH in H. destruct H as (a & b & -> & Hbef & Hb & Hfirst).
      exists (c :: a), b. rewrite Hbef, <- app_assoc.
      repeat split; auto.
      intros a1 a2 Ea Hne.
      destruct a1 as [| x a1]; simpl in Ea.
      * subst a2. exact E.
      * inversion Ea; subst. now apply (Hfirst a1 a2).
Qed.

End RegexFacts.

(* ================================================================= *)
(** * Facts on the loader's patterns *)

Section LoaderPatterns.

Implicit Types (s h body content : jsstring).

Lemma occurs_false_here p s : occurs p s = false -> strip_prefix p s = None.
Proof.
  destruct s; simpl; destruct (strip_prefix p _); auto; discriminate.
Qed.

Lemma occurs_false_suffix p : forall a s,
  occurs p (a ++ s) = false -> occurs p s = false.
Proof.
  induction a as [| c a IH]; intros s H; [exact H |].
  cbn [app occurs] in H.
  destruct (strip_prefix p (c :: a ++ s)); [discriminate | now apply IH].
Qed.

(** A literal without line feed does not match across a line feed. *)
Lemma strip_prefix_no_straddle : forall p u x,
  Forall not_LF p ->
  strip_prefix p u = None ->
  strip_prefix p (u ++ 10%N :: x) = None.
Proof.
  induction p as [| a p IH]; intros u x Hp H; [discriminate |].
  inversion Hp; subst.
  destruct u as [| y u]; simpl in *.
  - destruct (code_eqb a 10) eqn:E; [| reflexivity].
    apply code_eqb_eq in E. contradiction.
  - destruct (code_eqb a y); [now apply IH | reflexivity].
Qed.


Lemma frontmatter_body : body frontmatter_re = delimited true [].
Proof. reflexivity. Qed.

Lemma strip_body : body strip_re = delimited false LF.
Proof. reflexivity. Qed.

(** The run ends at the first closing literal: when no line of [h] past
    its first code unit begins with three dashes, that is after [h]. *)
Lemma delimited_exact cap closing_tail h rest :
  h <> [] ->
  occurs (LF ++ js "---") (tl h) = false ->
  match_here (delimited cap closing_tail)
    (js "---" ++ LF ++ h ++ (LF ++ js "---" ++ closing_tail) ++ rest)
  = Some (if cap then [h] else [], rest).
Proof.
  intros Hne Hocc. destruct h as [| c a]; [contradiction |]. cbn [tl] in Hocc.
  unfold delimited. cbn [match_here].
  rewrite (app_assoc (js "---") LF), strip_prefix_app.
  fold (match_here [Lit (LF ++ js "---" ++ closing_tail)]).
  change (match_here (Rep Lazy is_any 1 cap :: [Lit (LF ++ js "---" ++ closing_tail)])
            (c :: a ++ (LF ++ js "---" ++ closing_tail) ++ rest)
          = Some (if cap then [c :: a] else [], rest)).
  rewrite match_lazy_any_plus, scan_skip.
  - erewrite scan_hit; [reflexivity |].
    rewrite match_lit, strip_prefix_app. reflexivity.
  - intros a1 x a2 Ea. rewrite match_lit.
    assert (Hhere : strip_prefix (LF ++ js "---") (x :: a2) = None).
    { apply occurs_false_here. apply occurs_false_suffix with (a := a1).
      now rewrite <- Ea. }
    assert (Hlong : strip_prefix (LF ++ js "---")
                      ((x :: a2) ++ 10%N :: (js "---" ++ closing_tail) ++ rest) = None).
    { change (LF ++ js "---") with (10%N :: js "---") in *.
      cbn [strip_prefix app] in *.
      destruct (code_eqb 10 x); [| reflexivity].
      apply strip_prefix_no_straddle; [| exact Hhere].
      repeat constructor; discriminate. }
    change ((LF ++ js "---" ++ closing_tail) ++ rest)
      with (10%N :: (js "---" ++ closing_tail) ++ rest).
    change (x :: a2 ++ 10%N :: (js "---" ++ closing_tail) ++ rest)
      with ((x :: a2) ++ 10%N :: (js "---" ++ closing_tail) ++ rest).
    rewrite (app_assoc LF (js "---") closing_tail).
    rewrite strip_prefix_longer; [reflexivity | exact Hlong].
Qed.


End LoaderPatterns.

Section LoaderParsing.

Implicit Types (s h body content v : jsstring).

Lemma exec_frontmatter_exact h after :
  h <> [] ->
  occurs (LF ++ js "---") (tl h) = false ->
  exec frontmatter_re (js "---" ++ LF ++ h ++ LF ++ js "---" ++ after)
  = Some {| before := []; groups := [h]; rest := after |}.
Proof.
  intros Hne Hocc. unfold exec. cbn [anchored frontmatter_re].
  rewrite frontmatter_body.
  change (js "---" ++ LF ++ h ++ LF ++ js "---" ++ after)
    with (js "---" ++ LF ++ h ++ (LF ++ js "---" ++ []) ++ after).
  now rewrite (delimited_exact true [] after Hne Hocc).
Qed.

Lemma replace_strip_exact h body :
  h <> [] ->
  occurs (LF ++ js "---") (tl h) = false ->
  replace strip_re [] (js "---" ++ LF ++ h ++ LF ++ js "---" ++ LF ++ body) = body.
Proof.
  intros Hne Hocc. unfold replace, exec. cbn [anchored strip_re].
  rewrite strip_body.
  change (js "---" ++ LF ++ h ++ LF ++ js "---" ++ LF ++ body)
    with (js "---" ++ LF ++ h ++ (LF ++ js "---" ++ LF) ++ body).
  now rewrite (delimited_exact false LF body Hne Hocc).
Qed.

(** With a closing line of exactly three dashes that no header line
    anticipates, the descriptor is read from the header and the text
    after the closing line. *)
Lemma parse_skill_delimited h body skillMdPath :
  h <> [] ->
  occurs (LF ++ js "---") (tl h) = false ->
  parse_skill (js "---" ++ LF ++ h ++ LF ++ js "---" ++ LF ++ body) skillMdPath =
  match exec name_re h, exec description_re h with
  | Some nameMatch, Some descMatch =>
      Some {| name := trim (group 1 nameMatch);
              description := trim (group 1 descMatch);
              skill_path := skillMdPath;
              instructions := trim body |}
  | _, _ => None
  end.
Proof.
  intros Hne Hocc. unfold parse_skill.
  rewrite (exec_frontmatter_exact (LF ++ body) Hne Hocc).
  rewrite (replace_strip_exact body Hne Hocc).
  cbn [group groups Nat.sub nth].
  destruct (exec name_re h), (exec description_re h); reflexivity.
Qed.

(* ----------------------------------------------------------------- *)
(** *** The two keys *)

Lemma name_body : body name_re = key_body (js "name:").
Proof. reflexivity. Qed.

Lemma description_body : body description_re = key_body (js "description:").
Proof. reflexivity. Qed.

(** At the key, past the white space, the value is the rest of the line. *)
Lemma key_value_here key sp c v tail :
  Forall (fun x => is_space x = true) sp ->
  is_space c = false ->
  Forall (fun x => is_dot x = true) (c :: v) ->
  ends_line tail ->
  match_here (key_body key) (key ++ sp ++ (c :: v) ++ tail)
  = Some ([c :: v], tail).
Proof.
  intros Hsp Hc Hv Htail. unfold key_body.
  rewrite match_here_lit, strip_prefix_app, match_here_rep.
  rewrite (@run_length_app_stop is_space sp ((c :: v) ++ tail) Hsp Hc).
  rewrite greedy_counts by lia. cbn [first_some].
  unfold candidate at 1. rewrite skipn_length_app.
  rewrite match_here_rep.
  rewrite (@run_length_app_stop is_dot (c :: v) tail Hv Htail).
  rewrite greedy_counts by (simpl; lia). cbn [first_some].
  unfold candidate at 1.
  rewrite skipn_length_app, firstn_length_app. reflexivity.
Qed.

Lemma key_search_hit key pre sp c v tail :
  Forall (fun x => is_space x = true) sp ->
  is_space c = false ->
  Forall (fun x => is_dot x = true) (c :: v) ->
  ends_line tail ->
  search (key_body key) pre (key ++ sp ++ (c :: v) ++ tail)
  = Some {| before := pre; groups := [c :: v]; rest := tail |}.
Proof.
  intros Hsp Hc Hv Htail. apply search_hit. now apply key_value_here.
Qed.

Lemma key_search_hit_end key pre sp c v :
  Forall (fun x => is_space x = true) sp ->
  is_space c = false ->
  Forall (fun x => is_dot x = true) (c :: v) ->
  search (key_body key) pre (key ++ sp ++ c :: v)
  = Some {| before := pre; groups := [c :: v]; rest := [] |}.
Proof.
  intros Hsp Hc Hv.
  pose proof (@key_search_hit key pre sp c v [] Hsp Hc Hv I) as H.
  now rewrite app_nil_r in H.
Qed.

Lemma plain_value_inv v :
  plain_value v = true ->
  exists c v', v = c :: v' /\ is_space c = false /\
    Forall (fun x => is_dot x = true) v /\
    Forall not_colon v /\ Forall not_LF v.
Proof.
  unfold plain_value. intros H. apply andb_true_iff in H as [Hhd Hall].
  destruct v as [| c v']; [discriminate |].
  exists c, v'. split; [reflexivity |]. split; [now apply negb_true_iff |].
  rewrite forallb_forall in Hall.
  repeat split; apply Forall_forall; intros x Hx;
    specialize (Hall x Hx); apply andb_true_iff in Hall as [Hd Hcol].
  - exact Hd.
  - intros ->. discriminate.
  - intros ->. discriminate.
Qed.





End LoaderParsing.

Section HeaderLines.

Implicit Types (s h body content v : jsstring).

Lemma occurs_line p v x :
  Forall not_LF v -> occurs (10%N :: p) (v ++ x) = occurs (10%N :: p) x.
Proof.
  induction v as [| c v IH]; intros Hv; [reflexivity |].
  inversion Hv; subst. cbn [app occurs strip_prefix].
  destruct (code_eqb 10 c) eqn:E.
  - apply code_eqb_eq in E. now subst.
  - now apply IH.
Qed.

(** Two lines, the second not beginning with three dashes, hold no
    closing delimiter. *)
Lemma occurs_two_lines l1 l2 :
  Forall not_LF l1 -> Forall not_LF l2 ->
  strip_prefix (js "---") l2 = None ->
  occurs (LF ++ js "---") (l1 ++ LF ++ l2) = false.
Proof.
  intros H1 H2 Hdash.
  change (LF ++ js "---") with (10%N :: js "---").
  rewrite occurs_line by exact H1.
  change (LF ++ l2) with (10%N :: l2).
  cbn [occurs strip_prefix]. unfold code_eqb at 1. rewrite N.eqb_refl.
  rewrite Hdash.
  rewrite <- (app_nil_r l2), occurs_line by exact H2.
  reflexivity.
Qed.





(* ----------------------------------------------------------------- *)
(** *** [trim] *)

Lemma trimStart_split s :
  exists lead, s = lead ++ trimStart s /\ all_space lead.
Proof.
  induction s as [| c s (lead & Hs & Hl)].
  - exists []. split; [reflexivity | constructor].
  - simpl. destruct (is_space c) eqn:E.
    + exists (c :: lead). split; [simpl; now f_equal | now constructor].
    + exists []. split; [reflexivity | constructor].
Qed.

Lemma trimStart_head s c t : trimStart s = c :: t -> is_space c = false.
Proof.
  induction s as [| x s IH]; simpl; [discriminate |].
  destruct (is_space x) eqn:E; [exact IH |].
  intros H. inversion H; subst. exact E.
Qed.

(** [trim] removes white space at both ends and nothing else. *)
Lemma trim_split s :
  exists lead trail,
    s = lead ++ trim s ++ trail /\ all_space lead /\ all_space trail /\
    (forall c t, trim s = c :: t -> is_space c = false) /\
    (forall t c, trim s = t ++ [c] -> is_space c = false).
Proof.
  destruct (trimStart_split s) as (lead & Hs & Hlead).
  destruct (trimStart_split (rev (trimStart s))) as (l2 & Hr & Hl2).
  exists lead, (rev l2). unfold trim, trimEnd.
  assert (Hmid : trimStart s = rev (trimStart (rev (trimStart s))) ++ rev l2).
  { rewrite <- rev_app_distr, <- Hr. now rewrite rev_involutive. }
  split; [| split; [exact Hlead | split; [| split]]].
  - now rewrite <- Hmid.
  - apply Forall_rev. exact Hl2.
  - intros c t Ht. rewrite Ht in Hmid.
    eapply trimStart_head. exact Hmid.
  - intros t c Ht.
    apply (f_equal (@rev N)) in Ht.
    rewrite rev_involutive, rev_app_distr in Ht. simpl in Ht.
    eapply trimStart_head. exact Ht.
Qed.

End HeaderLines.

(* ================================================================= *)
(** * The loader's loop *)

Section LoaderLoop.

Variable backend : FilesystemBackend.

Lemma load_one_eq skills dir out :
  load_one backend skills dir out = (inr (skills ++ loaded backend dir), out ++ warned backend dir).
Proof.
  unfold load_one, loaded, warned.
  destruct (is_dir dir); [| cbn; now rewrite !app_nil_r].
  unfold try_catch, bind, await.
  destruct (readRaw backend (skillMdPath_of dir)) as [msg | fileData]; cbn.
  - now rewrite app_nil_r.
  - destruct (parse_skill _ _); cbn; now rewrite !app_nil_r.
Qed.

Lemma load_loop_eq : forall skillDirs skills out,
  load_loop backend skills skillDirs out =
  (inr (skills ++ flat_map (loaded backend) skillDirs), out ++ flat_map (warned backend) skillDirs).
Proof.
  induction skillDirs as [| dir more IH]; intros skills out.
  - cbn. now rewrite !app_nil_r.
  - cbn [load_loop flat_map]. unfold bind. rewrite load_one_eq, IH.
    now rewrite <- !app_assoc.
Qed.

Lemma parse_skill_path content skillMdPath skill :
  parse_skill content skillMdPath = Some skill -> skill_path skill = skillMdPath.
Proof.
  unfold parse_skill. intros H.
  destruct (exec frontmatter_re content) as [m |]; [| discriminate].
  destruct (exec name_re (group 1 m)), (exec description_re (group 1 m));
    try discriminate.
  now inversion H.
Qed.

Lemma parse_skill_valid content skillMdPath :
  validly_headered content = true <-> parse_skill content skillMdPath <> None.
Proof.
  unfold validly_headered, parse_skill.
  destruct (exec frontmatter_re content) as [m |]; [| split; [discriminate | contradiction]].
  destruct (exec name_re (group 1 m)), (exec description_re (group 1 m));
    split; try discriminate; try contradiction; reflexivity.
Qed.

Lemma loaded_valid dir :
  (has_valid_skill backend dir = true ->
   exists skill, loaded backend dir = [skill] /\ skill_path skill = skillMdPath_of dir) /\
  (has_valid_skill backend dir = false -> loaded backend dir = []).
Proof.
  unfold has_valid_skill, loaded.
  destruct (is_dir dir); [| split; [discriminate | reflexivity]].
  destruct (readRaw backend (skillMdPath_of dir)) as [msg | fileData];
    [split; [discriminate | reflexivity] |].
  cbn [andb].
  pose proof (parse_skill_valid (join LF (content fileData)) (skillMdPath_of dir)) as Hv.
  destruct (parse_skill _ _) as [skill |] eqn:E.
  - split.
    + intros _. exists skill. split; [reflexivity |].
      eapply parse_skill_path. exact E.
    + intros Hf. exfalso.
      assert (Ht : validly_headered (join LF (content fileData)) = true)
        by (apply Hv; discriminate).
      congruence.
  - split; [| reflexivity].
    intros Ht. apply Hv in Ht. contradiction.
Qed.


Lemma valid_among_directories : forall skillDirs,
  length (filter (has_valid_skill backend) skillDirs) <= length (filter is_dir skillDirs).
Proof.
  induction skillDirs as [| dir more IH]; [constructor |].
  cbn [filter].
  destruct (has_valid_skill backend dir) eqn:Ev, (is_dir dir) eqn:Ed; cbn [length]; try lia.
  unfold has_valid_skill in Ev. rewrite Ed in Ev. discriminate.
Qed.

End LoaderLoop.


(* ================================================================= *)
(** * Acceptance: the patterns against the text *)

Section Acceptance.

Implicit Types (s h v key content rest : jsstring).

Lemma first_some_In {A B} (f : A -> option B) : forall l b,
  first_some f l = Some b -> exists a, In a l /\ f a = Some b.
Proof.
  induction l as [| a l IH]; intros b H; simpl in H; [discriminate |].
  destruct (f a) as [b' |] eqn:E.
  - inversion H; subst. exists a. split; [now left | exact E].
  - destruct (IH b H) as (a' & Hin & Ha'). exists a'. split; [now right | exact Ha'].
Qed.

Lemma first_some_found {A B} (f : A -> option B) : forall l a,
  In a l -> f a <> None -> first_some f l <> None.
Proof.
  induction l as [| x l IH]; intros a Hin Ha; [contradiction |].
  simpl. destruct (f x) eqn:E; [discriminate |].
  destruct Hin as [-> | Hin]; [contradiction | now apply (IH a)].
Qed.

Lemma counts_bound q min n k : In k (counts q min n) -> min <= k <= n.
Proof.
  unfold counts. intros H.
  destruct q; [apply in_rev in H |]; apply in_seq in H; lia.
Qed.

Lemma counts_In q min n k : min <= k <= n -> In k (counts q min n).
Proof.
  unfold counts. intros H.
  destruct q; [apply -> in_rev |]; apply in_seq; lia.
Qed.

Lemma run_length_firstn cls : forall s k,
  k <= run_length cls s ->
  length (firstn k s) = k /\ Forall (fun c => cls c = true) (firstn k s).
Proof.
  induction s as [| c s IH]; intros k Hk; simpl in Hk.
  - assert (k = 0) by lia. subst. split; [reflexivity | constructor].
  - destruct k as [| k]; [split; [reflexivity | constructor] |].
    destruct (cls c) eqn:E; [| lia].
    destruct (IH k) as [Hl Hf]; [lia |].
    split; [simpl; now f_equal | simpl; now constructor].
Qed.

Lemma run_length_app_ge cls : forall v tail,
  Forall (fun c => cls c = true) v -> length v <= run_length cls (v ++ tail).
Proof.
  induction v as [| c v IH]; intros tail Hv; [simpl; lia |].
  inversion Hv; subst. simpl. rewrite H1. specialize (IH tail H2). lia.
Qed.

Lemma file_text_join lines : join LF lines = file_text lines.
Proof.
  induction lines as [| l more IH]; [reflexivity |].
  destruct more as [| l' more']; [reflexivity |].
  change (join LF (l :: l' :: more')) with (l ++ LF ++ join LF (l' :: more')).
  rewrite IH. reflexivity.
Qed.

Lemma occurs_true_split p : forall s,
  occurs p s = true -> exists u v, s = u ++ p ++ v.
Proof.
  induction s as [| c s IH]; intros H; simpl in H.
  - destruct (strip_prefix p []) as [v |] eqn:E; [| discriminate].
    apply strip_prefix_Some in E. now exists [], v.
  - destruct (strip_prefix p (c :: s)) as [v |] eqn:E.
    + apply strip_prefix_Some in E. now exists [], v.
    + destruct (IH H) as (u & v & ->). now exists (c :: u), v.
Qed.

(** A scan stops at the first place where the remaining nodes match. *)
Lemma scan_first r cap : forall s pre gs s',
  scan r cap pre s = Some (gs, s') ->
  exists a b gs',
    s = a ++ b /\ match_here r b = Some (gs', s') /\
    gs = (if cap then (pre ++ a) :: gs' else gs') /\
    (forall a1 a2, a = a1 ++ a2 -> a2 <> [] -> match_here r (a2 ++ b) = None).
Proof.
  induction s as [| c s IH]; intros pre gs s' H; simpl in H.
  - destruct (match_here r []) as [[gs0 s0] |] eqn:E; [| discriminate].
    inversion H; subst. exists [], [], gs0. simpl. rewrite app_nil_r.
    repeat split; auto.
    intros a1 a2 Ea Hne. destruct a1, a2; try discriminate. contradiction.
  - destruct (match_here r (c :: s)) as [[gs0 s0] |] eqn:E.
    + inversion H; subst. exists [], (c :: s), gs0. simpl. rewrite app_nil_r.
      repeat split; auto.
      intros a1 a2 Ea Hne. destruct a1, a2; try discriminate. contradiction.
    + apply IH in H. destruct H as (a & b & gs' & -> & Hb & -> & Hfirst).
      exists (c :: a), b, gs'. rewrite <- app_assoc.
      repeat split; auto.
      intros a1 a2 Ea Hne.
      destruct a1 as [| x a1]; simpl in Ea.
      * subst a2. exact E.
      * inversion Ea; subst. now apply (Hfirst a1 a2).
Qed.

(** The header pattern matches exactly the contents with a header, and
    captures it. *)
Lemma frontmatter_header content m :
  exec frontmatter_re content = Some m ->
  exists h rest, header_of content h rest /\ group 1 m = h.
Proof.
  unfold exec. cbn [anchored frontmatter_re body]. intros H.
  destruct (match_here _ content) as [[gs s'] |] eqn:E; [| discriminate].
  inversion H; subst m; clear H.
  cbn [match_here] in E.
  destruct (strip_prefix (js "---" ++ LF) content) as [s |] eqn:Es; [| discriminate].
  apply strip_prefix_Some in Es. subst content.
  destruct s as [| c s]; [discriminate |].
  change (match_here (Rep Lazy is_any 1 true :: [Lit (LF ++ js "---")]) (c :: s)
          = Some (gs, s')) in E.
  rewrite match_lazy_any_plus in E.
  apply scan_first in E. destruct E as (a & b & gs' & -> & Hb & -> & Hfirst).
  rewrite match_lit in Hb.
  destruct (strip_prefix (LF ++ js "---") b) as [r |] eqn:Er; [| discriminate].
  inversion Hb; subst gs' s'; clear Hb.
  apply strip_prefix_Some in Er. subst b.
  exists (c :: a), r. split; [| reflexivity].
  split; [discriminate |]. split.
  - rewrite <- !app_assoc. reflexivity.
  - cbn [tl].
    destruct (occurs (LF ++ js "---") a) eqn:Eo; [| reflexivity].
    apply occurs_true_split in Eo. destruct Eo as (u & v & ->).
    assert (Hn : match_here [Lit (LF ++ js "---")]
                   (((LF ++ js "---") ++ v) ++ (LF ++ js "---") ++ r) = None).
    { apply (Hfirst u); [reflexivity | discriminate]. }
    rewrite match_lit, <- app_assoc, strip_prefix_app in Hn. discriminate.
Qed.

Lemma header_frontmatter content h rest :
  header_of content h rest ->
  exec frontmatter_re content
  = Some {| before := []; groups := [h]; Regex.rest := rest |}.
Proof.
  intros (Hne & -> & Hq). now apply exec_frontmatter_exact.
Qed.

Lemma search_finds r : forall a pre b,
  match_here r b <> None -> search r pre (a ++ b) <> None.
Proof.
  induction a as [| c a IH]; intros pre b Hb.
  - simpl. destruct b; simpl;
      (destruct (match_here r _) as [[gs s'] |]; [discriminate | contradiction]).
  - cbn [app search].
    destruct (match_here r (c :: a ++ b)) as [[gs s'] |]; [discriminate |].
    now apply IH.
Qed.

(** A key pattern matches exactly where its key is present. *)
Lemma key_here_present key s gs s' :
  match_here (key_body key) s = Some (gs, s') ->
  exists sp c post,
    s = key ++ sp ++ c :: post /\ all_space sp /\ is_line_terminator c = false.
Proof.
  unfold key_body. rewrite match_here_lit.
  destruct (strip_prefix key s) as [s0 |] eqn:Es; [| discriminate].
  apply strip_prefix_Some in Es. subst s.
  rewrite match_here_rep. intros H.
  apply first_some_In in H. destruct H as (k & Hin & Hk).
  apply counts_bound in Hin.
  unfold candidate in Hk.
  destruct (match_here [Rep Greedy is_dot 1 true] (skipn k s0))
    as [[gs1 s1] |] eqn:E; [| discriminate].
  rewrite match_here_rep in E.
  apply first_some_In in E. destruct E as (k2 & Hin2 & _).
  apply counts_bound in Hin2.
  destruct (@run_length_firstn is_space s0 k) as [_ Hsp]; [lia |].
  destruct (skipn k s0) as [| c post] eqn:Esk; [simpl in Hin2; lia |].
  exists (firstn k s0), c, post. split; [| split].
  - rewrite <- Esk, firstn_skipn. reflexivity.
  - exact Hsp.
  - simpl in Hin2. unfold is_dot in Hin2.
    destruct (is_line_terminator c); [simpl in Hin2; lia | reflexivity].
Qed.

Lemma key_present_here key sp c post :
  all_space sp -> is_line_terminator c = false ->
  match_here (key_body key) (key ++ sp ++ c :: post) <> None.
Proof.
  intros Hsp Hc. unfold key_body.
  rewrite match_here_lit, strip_prefix_app, match_here_rep.
  apply first_some_found with (a := length sp).
  - apply counts_In. split; [lia |]. now apply run_length_app_ge.
  - unfold candidate. rewrite skipn_length_app, match_here_rep.
    assert (Hrun : 1 <= run_length is_dot (c :: post)).
    { simpl. unfold is_dot. rewrite Hc. simpl. lia. }
    rewrite greedy_counts by exact Hrun. cbn [first_some].
    unfold candidate. cbn [match_here]. discriminate.
Qed.

Lemma key_exec_present key h :
  search (key_body key) [] h <> None <-> key_present key h.
Proof.
  split.
  - intros H. destruct (search (key_body key) [] h) as [m |] eqn:E;
      [clear H | contradiction].
    apply search_Some in E. destruct E as (a & b & -> & _ & Hb & _).
    apply key_here_present in Hb. destruct Hb as (sp & c & post & -> & Hsp & Hc).
    now exists a, sp, c, post.
  - intros (pre & sp & c & post & -> & Hsp & Hc).
    apply search_finds. now apply key_present_here.
Qed.

(** The loader's test holds exactly of the accepted texts. *)
Lemma validly_headered_accepted content :
  validly_headered content = true <-> accepted_text content.
Proof.
  unfold validly_headered. split.
  - intros H.
    destruct (exec frontmatter_re content) as [m |] eqn:Ef; [| discriminate].
    destruct (frontmatter_header content Ef) as (h & rest & Hh & Hg).
    rewrite Hg in H.
    destruct (exec name_re h) as [nm |] eqn:En; [| discriminate].
    destruct (exec description_re h) as [dm |] eqn:Ed; [| discriminate].
    exists h, rest. split; [exact Hh |].
    unfold exec in En, Ed. cbn [anchored name_re description_re] in En, Ed.
    change (Regex.body name_re) with (key_body (js "name:")) in En.
    change (Regex.body description_re) with (key_body (js "description:")) in Ed.
    split; apply key_exec_present; congruence.
  - intros (h & rest & Hh & Hn & Hd).
    rewrite (header_frontmatter Hh). cbn [group groups Nat.sub nth].
    apply key_exec_present in Hn. apply key_exec_present in Hd.
    unfold exec. cbn [anchored name_re description_re].
    change (Regex.body name_re) with (key_body (js "name:")).
    change (Regex.body description_re) with (key_body (js "description:")).
    destruct (search (key_body (js "name:")) [] h); [| contradiction].
    destruct (search (key_body (js "description:")) [] h); [reflexivity | contradiction].
Qed.

Lemma has_valid_skill_accepted (backend : FilesystemBackend) dir :
  has_valid_skill backend dir = true <-> accepted_entry backend dir.
Proof.
  unfold has_valid_skill, accepted_entry, skillMdPath_of. split.
  - intros H. apply andb_true_iff in H as [Hd H]. split; [exact Hd |].
    destruct (readRaw backend (path dir ++ js "SKILL.md")) as [msg | [lines]];
      [discriminate |].
    exists lines. split; [reflexivity |].
    cbn [content] in H. rewrite file_text_join in H.
    now apply validly_headered_accepted.
  - intros (Hd & lines & Hr & Ha). rewrite Hd, Hr. cbn [andb content].
    rewrite file_text_join. now apply validly_headered_accepted.
Qed.


(** A key that the pattern does not find is not present. *)
Lemma key_absent key h :
  search (key_body key) [] h = None -> ~ key_present key h.
Proof.
  intros E HP. apply key_exec_present in HP. contradiction.
Qed.

(** An entry without an accepted file adds nothing and writes nothing,
    unless the file cannot be read. *)
Lemma loaded_rejected (backend : FilesystemBackend) dir lines h rest :
  is_dir dir = true ->
  readRaw backend (path dir ++ js "SKILL.md") = inr {| content := lines |} ->
  header_of (file_text lines) h rest ->
  ~ key_present (js "name:") h \/ ~ key_present (js "description:") h ->
  loaded backend dir = [] /\ warned backend dir = [].
Proof.
  intros Hdir Hread Hh Hkey.
  assert (Hno : has_valid_skill backend dir = false).
  { destruct (has_valid_skill backend dir) eqn:E; [| reflexivity].
    apply has_valid_skill_accepted in E.
    destruct E as (_ & lines' & Hr' & h' & rest' & Hh' & Hn & Hd).
    rewrite Hread in Hr'. inversion Hr'; subst lines'.
    pose proof (header_frontmatter Hh) as E1.
    pose proof (header_frontmatter Hh') as E2.
    rewrite E1 in E2. inversion E2; subst h'.
    destruct Hkey as [Hk | Hk]; contradiction. }
  split.
  - now apply (proj2 (loaded_valid backend dir)).
  - unfold warned, skillMdPath_of. now rewrite Hdir, Hread.
Qed.

Lemma warned_unreadable (backend : FilesystemBackend) dir :
  (unreadable_entry backend dir ->
   warned backend dir
   = [js "Warning: Could not load skill from " ++ path dir ++ js "SKILL.md"]) /\
  (~ unreadable_entry backend dir -> warned backend dir = []).
Proof.
  unfold unreadable_entry, warned, skillMdPath_of. split.
  - intros (Hd & msg & Hr). now rewrite Hd, Hr.
  - intros Hn. destruct (is_dir dir); [| reflexivity].
    destruct (readRaw backend (path dir ++ js "SKILL.md")) as [msg |]; [| reflexivity].
    exfalso. apply Hn. split; [reflexivity | now exists msg].
Qed.

End Acceptance.

(* ================================================================= *)
(** * The scenarios, run *)

Example scenario_a_loads_foo :
  loadSkillsMetadata Files.scenario_a (js "/skills") [] =
  (inr [{| name := js "foo"; description := js "Foo tool";
           skill_path := js "/skills/foo/SKILL.md";
           instructions := js "Do X" |}],
   [js "Warning: Could not load skill from /skills/bar/SKILL.md"]).
Proof. vm_compute. reflexivity. Qed.

(** A closing line that ends the file: the header pattern matches, the
    stripping pattern, which asks for a line feed after the dashes, does
    not, and the header stays in the instructions. *)
Example closing_line_at_end_of_file :
  option_map instructions
    (parse_skill (join LF [js "---"; js "name: foo"; js "description: Foo tool";
                           js "---"])
                 (js "/skills/foo/SKILL.md")) =
  Some (join LF [js "---"; js "name: foo"; js "description: Foo tool"; js "---"]).
Proof. vm_compute. reflexivity. Qed.

(** A key is found inside a longer word: [filename:] holds [name:]. *)
Example key_inside_a_word :
  parse_skill (join LF [js "---"; js "filename: x.md"; js "description: d";
                        js "---"; js "Do X"])
              (js "/skills/foo/SKILL.md") =
  Some {| name := js "x.md"; description := js "d";
          skill_path := js "/skills/foo/SKILL.md"; instructions := js "Do X" |}.
Proof. vm_compute. reflexivity. Qed.

Example scenario_c_one_tool_call :
  fst (session (index_with_graph Scenario.scripted_model Scenario.search_registry)
               25 [] [js "search X"] []) =
  inr [HumanMessage (js "search X");
       AIMessage [] (Some [Scenario.search_call]);
       ToolMessage (js "result text") (js "1");
       AIMessage (js "done") None].
Proof. vm_compute. reflexivity. Qed.

Example scenario_d_unknown_tool :
  fst (session (index_with_graph Scenario.scripted_model []) 25 []
               [js "search X"] []) =
  inr [HumanMessage (js "search X");
       AIMessage [] (Some [Scenario.search_call]);
       ToolMessage (js "Error: unknown tool 'search'") (js "1");
       AIMessage (js "done") None].
Proof. vm_compute. reflexivity. Qed.

Example skills_session_inputs :
  snd (session (index_with_skills Scenario.scripted_model [] Scenario.search_registry)
               25 [] [js "search X"] []) =
  [[SystemMessage (Prompts.skillsPrompt []); HumanMessage (js "search X")];
   [HumanMessage (js "search X");
    AIMessage [] (Some [Scenario.search_call]);
    ToolMessage (js "result text") (js "1")]].
Proof. vm_compute. reflexivity. Qed.

Example eager_model_hits_the_limit :
  fst (session (index_with_graph Scenario.eager_model Scenario.search_registry)
               25 [] [js "search X"] []) =
  inl GraphRecursionError.
Proof. vm_compute. reflexivity. Qed.

(* ================================================================= *)
(** * The claims *)

(** C1. In every transcript a Session returns, whether the graph is
    that of [index-with-graph.ts] or that of the two skills programs,
    the tool results between an [AIMessage] and the next one answer its
    tool calls one for one: their correlation ids are the ids of the
    calls, in the order of the calls, and there is no other result.
    Hence, the ids of the calls being distinct, each call has exactly
    one result under its id. *)
Theorem tool_results_match_calls :
  forall (json : Type) (w : Workflow json) modelWithTools skillsPrompt registry
         recursionLimit queries log transcript log',
    w = graph_app modelWithTools registry \/
    w = skills_app modelWithTools skillsPrompt registry ->
    session w recursionLimit [] queries log = (inr transcript, log') ->
    forall pre c tcs post,
      transcript = pre ++ AIMessage c tcs :: post ->
      result_ids (until_next_ai post) = map (@tc_id json) (calls tcs) /\
      (NoDup (map (@tc_id json) (calls tcs)) ->
       forall tc, In tc (calls tcs) ->
         count_occ jsstring_eq_dec (result_ids (until_next_ai post)) (tc_id tc) = 1).
Proof.
  intros json w m prompt registry limit queries log transcript log' Hw Hrun
         pre c tcs post Ht.
  assert (Hm : matched transcript).
  { destruct Hw as [-> | ->].
    - eapply session_matched with (registry := registry) (saved := []);
        [apply graph_app_appends_one_ai | reflexivity | exact I | exact Hrun].
    - eapply session_matched with (registry := registry) (saved := []);
        [apply skills_app_appends_one_ai | reflexivity | exact I | exact Hrun]. }
  pose proof (@matched_at _ _ Hm _ _ _ _ Ht) as Hids. unfold call_ids in Hids.
  split; [exact Hids |].
  intros Hnd tc Hin. rewrite Hids.
  apply NoDup_count_occ'; [exact Hnd |].
  now apply in_map.
Qed.

(** A Session of [index-with-graph.ts] with one tool call: the result
    under id ["1"] follows the call under id ["1"]. *)
Lemma tool_results_match_calls_witness :
  result_ids (until_next_ai
    [ToolMessage (js "result text") (js "1");
     @AIMessage jsstring (js "done") None]) = [js "1"] /\
  (NoDup [js "1"] ->
   forall tc, In tc [Scenario.search_call] ->
     count_occ jsstring_eq_dec
       (result_ids (until_next_ai
          [ToolMessage (js "result text") (js "1");
           @AIMessage jsstring (js "done") None]))
       (tc_id tc) = 1).
Proof.
  exact (@tool_results_match_calls jsstring
           (graph_app Scenario.scripted_model Scenario.search_registry)
           Scenario.scripted_model [] Scenario.search_registry
           25 [js "search X"] [] _ _
           (or_introl eq_refl) eq_refl
           [HumanMessage (js "search X")] [] (Some [Scenario.search_call])
           [ToolMessage (js "result text") (js "1");
            AIMessage (js "done") None]
           eq_refl).
Defined.

(** C2. On a state whose last message is an [AIMessage], the routing
    function sends the run to the tools node exactly when the message
    has at least one tool call, and to the end otherwise; an empty
    [tool_calls] array counts as an absent one.  When that message is
    the answer the agent node has just appended and it has no tool
    call, the run returns the transcript it routed on, unchanged. *)
Theorem routing_by_last_assistant :
  forall (json : Type) (w : Workflow json) fuel st log c tcs log',
    let st' := apply_update st [AIMessage c tcs] in
    (shouldContinue st' = inr Route_tools <-> exists tc more, tcs = Some (tc :: more)) /\
    (shouldContinue st' = inr Route_end <-> tcs = Some [] \/ tcs = None) /\
    (agent_node w st log = (inr [AIMessage c tcs], log') ->
     tcs = Some [] \/ tcs = None ->
     run w (S fuel) agent st log = (inr st', log') /\
     messages st' = messages st ++ [AIMessage c tcs]).
Proof.
  intros json w fuel st log c tcs log' st'.
  assert (Hroute : shouldContinue st' =
                   inr (match calls tcs with [] => Route_end | _ :: _ => Route_tools end))
    by apply shouldContinue_snoc.
  split3.
  - rewrite Hroute. split.
    + destruct tcs as [[| tc more] |]; simpl; intros E;
        try discriminate E; eauto.
    + intros (tc & more & ->). reflexivity.
  - rewrite Hroute. split.
    + destruct tcs as [[| tc more] |]; simpl; intros E;
        try discriminate E; auto.
    + intros [-> | ->]; reflexivity.
  - intros Ha Hnone. split; [| reflexivity].
    rewrite run_agent_step, Ha. fold st'. rewrite Hroute.
    destruct Hnone as [-> | ->]; reflexivity.
Qed.

(** The scripted model's second answer has no tool calls: the run ends
    with that answer appended. *)
Lemma routing_by_last_assistant_witness :
  let st := {| messages := [HumanMessage (js "hi"); @AIMessage jsstring [] None;
                            HumanMessage (js "more")] |} in
  let st' := apply_update st [AIMessage (js "done") None] in
  shouldContinue st' = inr Route_end /\
  run (graph_app Scenario.scripted_model Scenario.search_registry) 1 agent st
      [[HumanMessage (js "hi")]]
    = (inr st', [[HumanMessage (js "hi")]] ++ [messages st]) /\
  messages st' = messages st ++ [AIMessage (js "done") None].
Proof.
  pose proof (@routing_by_last_assistant jsstring
                (graph_app Scenario.scripted_model Scenario.search_registry) 0
                {| messages := [HumanMessage (js "hi"); AIMessage [] None;
                                HumanMessage (js "more")] |}
                [[HumanMessage (js "hi")]] (js "done") None
                ([[HumanMessage (js "hi")]] ++
                 [[HumanMessage (js "hi"); AIMessage [] None;
                   HumanMessage (js "more")]]))
    as [_ [Hend Hrun]].
  split.
  - apply Hend. right. reflexivity.
  - apply Hrun; [reflexivity | right; reflexivity].
Defined.

(** C3. In a Session of the skills programs the first model invocation
    receives the skills prompt as a [SystemMessage] before the query, and
    no later invocation of the Session receives a [SystemMessage]; on
    every invocation the prompt is there exactly when the input holds
    one [Human] message and no [Assistant] message. *)
Theorem skills_prompt_injected_once :
  forall (json : Type) (modelWithTools : ChatModel json) skillsPrompt registry
         fuel query later log,
  exists inputs,
    snd (session (skills_app modelWithTools skillsPrompt registry) (S fuel) []
                 (query :: later) log)
    = log ++ [SystemMessage skillsPrompt; HumanMessage query] :: inputs /\
    Forall system_free inputs /\
    Forall (fun inp => injected skillsPrompt inp <-> first_turn inp)
           ([SystemMessage skillsPrompt; HumanMessage query] :: inputs).
Proof.
  intros json m prompt registry fuel query later log.
  destruct (session (skills_app m prompt registry) (S fuel) [] (query :: later) log)
    as [r log'] eqn:Hrun.
  apply skills_session_first in Hrun.
  destruct Hrun as (inputs & -> & Hin & _).
  exists inputs. split3.
  - reflexivity.
  - eapply Forall_impl; [| exact Hin].
    intros inp. apply past_first_turn_system_free.
  - constructor.
    + split; [intros _; split; reflexivity | intros _; reflexivity].
    + eapply Forall_impl; [| exact Hin].
      intros inp. apply past_first_turn_not_first.
Qed.




(** C5, as the claim states it, fails: a header without [description]
    is skipped, and nothing is written to the console. *)
Lemma missing_key_logs_no_warning :
  exec description_re (js "name: foo") = None /\
  exec frontmatter_re (join LF [js "---"; js "name: foo"; js "---"; js "Do X"])
    = Some {| before := []; groups := [js "name: foo"]; rest := LF ++ js "Do X" |} /\
  loadSkillsMetadata Files.no_description (js "/skills") [] = (inr [], []).
Proof. repeat split; vm_compute; reflexivity. Qed.

(** C5, amended. A readable instruction file in whose header [name:]
    or [description:] is nowhere followed, after white space if any, by
    something other than a line terminator adds no descriptor and
    writes nothing to the console, and the loop goes on as if the entry
    were not listed.  An entry writes the warning exactly when it is a
    subdirectory whose file cannot be read. *)
Theorem missing_key_skipped_silently :
  forall (backend : FilesystemBackend) dir lines h rest,
    is_dir dir = true ->
    readRaw backend (path dir ++ js "SKILL.md") = inr {| content := lines |} ->
    header_of (file_text lines) h rest ->
    ~ key_present (js "name:") h \/ ~ key_present (js "description:") h ->
    (forall skills out, load_one backend skills dir out = (inr skills, out)) /\
    (forall skills earlier later out,
        load_loop backend skills (earlier ++ dir :: later) out =
        load_loop backend skills (earlier ++ later) out) /\
    (forall skills other out,
        (unreadable_entry backend other ->
         load_one backend skills other out =
         (inr skills,
          out ++ [js "Warning: Could not load skill from " ++
                  path other ++ js "SKILL.md"])) /\
        (~ unreadable_entry backend other ->
         snd (load_one backend skills other out) = out)).
Proof.
  intros backend dir lines h rest Hdir Hread Hh Hkey.
  destruct (loaded_rejected backend dir Hdir Hread Hh Hkey) as [Hloaded Hwarned].
  split3.
  - intros skills out. rewrite load_one_eq, Hloaded, Hwarned.
    now rewrite !app_nil_r.
  - intros skills earlier later out. rewrite !load_loop_eq.
    rewrite !flat_map_app. cbn [flat_map].
    now rewrite Hloaded, Hwarned.
  - intros skills other out.
    destruct (warned_unreadable backend other) as [Hyes Hno]. split.
    + intros Hu. rewrite load_one_eq, (Hyes Hu). f_equal.
      destruct Hu as (Hd & msg & Hr).
      unfold loaded, skillMdPath_of. rewrite Hd, Hr. now rewrite app_nil_r.
    + intros Hu. rewrite load_one_eq, (Hno Hu). cbn [snd]. apply app_nil_r.
Qed.

(** A header without [description], beside a subdirectory without
    instruction file. *)
Lemma missing_key_skipped_silently_witness :
  (forall skills out,
      load_one Files.key_missing_beside_unreadable skills Files.foo_dir out
      = (inr skills, out)) /\
  (forall skills earlier later out,
      load_loop Files.key_missing_beside_unreadable skills
                (earlier ++ Files.foo_dir :: later) out =
      load_loop Files.key_missing_beside_unreadable skills (earlier ++ later) out) /\
  (forall skills other out,
      (unreadable_entry Files.key_missing_beside_unreadable other ->
       load_one Files.key_missing_beside_unreadable skills other out =
       (inr skills,
        out ++ [js "Warning: Could not load skill from " ++
                path other ++ js "SKILL.md"])) /\
      (~ unreadable_entry Files.key_missing_beside_unreadable other ->
       snd (load_one Files.key_missing_beside_unreadable skills other out) = out)).
Proof.
  apply (@missing_key_skipped_silently Files.key_missing_beside_unreadable
           Files.foo_dir
           [js "---"; js "name: foo"; js "---"; js "Do X"]
           (js "name: foo") (LF ++ js "Do X")).
  - reflexivity.
  - reflexivity.
  - split; [discriminate | split; reflexivity].
  - right. apply key_absent. reflexivity.
Defined.

(** C6, as the claim states it, fails: of a body between blank lines the
    spec keeps all but the first line feed, the code keeps neither the
    blank line in front nor the line feed at the end. *)
Lemma instructions_lose_blank_lines :
  spec_instructions (join LF Files.padded_body) = Some (LF ++ js "Do X" ++ LF) /\
  parse_skill (join LF Files.padded_body) (js "/skills/foo/SKILL.md")
    = Some {| name := js "foo"; description := js "Foo tool";
              skill_path := js "/skills/foo/SKILL.md";
              instructions := js "Do X" |} /\
  str_eqb (js "Do X") (LF ++ js "Do X" ++ LF) = false.
Proof. repeat split; vm_compute; reflexivity. Qed.

(** C6, amended. When the header is closed by a line of exactly three
    dashes, the first line after the opening one to begin with three
    dashes, the instructions are the text after that line with the
    white space at both of its ends removed and nothing else changed. *)
Theorem instructions_are_trimmed_body :
  forall h body skillMdPath skill,
    h <> [] ->
    occurs (LF ++ js "---") (tl h) = false ->
    parse_skill (js "---" ++ LF ++ h ++ LF ++ js "---" ++ LF ++ body) skillMdPath
      = Some skill ->
    instructions skill = trim body /\
    exists lead trail,
      body = lead ++ instructions skill ++ trail /\
      all_space lead /\ all_space trail /\
      (forall c t, instructions skill = c :: t -> is_space c = false) /\
      (forall t c, instructions skill = t ++ [c] -> is_space c = false).
Proof.
  intros h body skillMdPath skill Hne Hq Hparse.
  rewrite (parse_skill_delimited body skillMdPath Hne Hq) in Hparse.
  assert (Hi : instructions skill = trim body).
  { destruct (exec name_re h), (exec description_re h); try discriminate.
    now inversion Hparse. }
  split; [exact Hi |]. rewrite Hi. apply trim_split.
Qed.

(** The body between blank lines. *)
Lemma instructions_are_trimmed_body_witness :
  js "Do X" = trim (LF ++ js "Do X" ++ LF) /\
  exists lead trail,
    LF ++ js "Do X" ++ LF = lead ++ js "Do X" ++ trail /\
    all_space lead /\ all_space trail /\
    (forall c t, js "Do X" = c :: t -> is_space c = false) /\
    (forall t c, js "Do X" = t ++ [c] -> is_space c = false).
Proof.
  exact (@instructions_are_trimmed_body
           (js "name: foo" ++ LF ++ js "description: Foo tool")
           (LF ++ js "Do X" ++ LF) (js "/skills/foo/SKILL.md")
           {| name := js "foo"; description := js "Foo tool";
              skill_path := js "/skills/foo/SKILL.md";
              instructions := js "Do X" |}
           ltac:(discriminate) eq_refl eq_refl).
Defined.



(** C8. [callModel] without a model in its configuration throws
    ["Model not provided in config"] before it invokes anything; a graph
    whose agent node it is fails on its first node execution with that
    error, returns no transcript, and runs no later query. *)
Theorem missing_model_is_fatal :
  forall (json : Type) (st : State json) (config : Config json) log,
    config_model config = None ->
    callModel st config log
      = (inl (Error (js "Model not provided in config")), log) /\
    (forall registry fuel,
        run {| agent_node := fun s => callModel s config;
               tools_node := toolNode registry |} (S fuel) agent st log
        = (inl (Error (js "Model not provided in config")), log)) /\
    (forall registry fuel saved query later,
        session {| agent_node := fun s => callModel s config;
                   tools_node := toolNode registry |} (S fuel) saved
                (query :: later) log
        = (inl (Error (js "Model not provided in config")), log)).
Proof.
  intros json st config log Hnone.
  assert (Hcall : forall s, callModel s config log
                  = (inl (Error (js "Model not provided in config")), log)).
  { intros s. unfold callModel. rewrite Hnone. reflexivity. }
  split3.
  - apply Hcall.
  - intros registry fuel. rewrite run_agent_step. cbn [agent_node].
    now rewrite Hcall.
  - intros registry fuel saved query later.
    rewrite session_step. unfold invoke.
    rewrite run_agent_step. cbn [agent_node].
    now rewrite Hcall.
Qed.

(** A configuration without [configurable]. *)
Lemma missing_model_is_fatal_witness :
  callModel {| messages := [HumanMessage (js "hi")] |} Scenario.no_model []
    = (inl (Error (js "Model not provided in config")), []) /\
  (forall registry fuel,
      run {| agent_node := fun s => callModel s Scenario.no_model;
             tools_node := toolNode registry |} (S fuel) agent
          {| messages := [HumanMessage (js "hi")] |} []
      = (inl (Error (js "Model not provided in config")), [])) /\
  (forall registry fuel saved query later,
      session {| agent_node := fun s => callModel s Scenario.no_model;
                 tools_node := toolNode registry |} (S fuel) saved
              (query :: later) []
      = (inl (Error (js "Model not provided in config")), [])).
Proof.
  exact (@missing_model_is_fatal jsstring
           {| messages := [HumanMessage (js "hi")] |} Scenario.no_model []
           eq_refl).
Defined.

(** C9. On the empty message sequence the routing function faults on
    the read of [tool_calls].  In the graphs of the three programs it is
    evaluated on the state the agent node has just extended with the
    model's answer, which is not empty, so it returns a route there; no
    run ends in that fault. *)
Theorem routing_never_reads_undefined :
  forall (json : Type) (w : Workflow json) modelWithTools skillsPrompt registry,
    w = graph_app modelWithTools registry \/
    w = skills_app modelWithTools skillsPrompt registry ->
    shouldContinue {| messages := @nil (BaseMessage json) |}
      = inl (TypeError (js "tool_calls")) /\
    (forall st log upd log',
        agent_node w st log = (inr upd, log') ->
        messages (apply_update st upd) <> [] /\
        exists route, shouldContinue (apply_update st upd) = inr route) /\
    (forall fuel node st log reading log',
        run w fuel node st log <> (inl (TypeError reading), log')).
Proof.
  intros json w m prompt registry Hw.
  assert (Hone : appends_one_ai w).
  { destruct Hw as [-> | ->];
      [apply graph_app_appends_one_ai | apply skills_app_appends_one_ai]. }
  split3.
  - reflexivity.
  - intros st log upd log' Ha.
    destruct (Hone _ _ _ _ Ha) as (c & tcs & ->).
    unfold apply_update, reducer. cbn [messages]. split.
    + intros E. now apply app_eq_nil in E as [_ E].
    + apply shouldContinue_defined.
  - apply run_no_type_error; [| | exact Hone].
    + intros st log e log' Ha.
      destruct Hw as [-> | ->]; cbn [graph_app skills_app agent_node] in Ha.
      * apply graph_agent_inv in Ha.
        destruct Ha as [_ [(c & tcs & Hr) | (msg & Hr)]]; inversion Hr; eauto.
      * apply skills_agent_inv in Ha.
        destruct Ha as [_ [(c & tcs & Hr) | (msg & Hr)]]; inversion Hr; eauto.
    + intros st log e log' Ht.
      destruct Hw as [-> | ->]; cbn [graph_app skills_app tools_node] in Ht;
        eapply toolNode_throws_error; exact Ht.
Qed.

(** The graph of [index-with-graph.ts] with the scripted model. *)
Lemma routing_never_reads_undefined_witness :
  shouldContinue {| messages := @nil (BaseMessage jsstring) |}
    = inl (TypeError (js "tool_calls")) /\
  (forall st log upd log',
      agent_node (graph_app Scenario.scripted_model Scenario.search_registry)
                 st log = (inr upd, log') ->
      messages (apply_update st upd) <> [] /\
      exists route, shouldContinue (apply_update st upd) = inr route) /\
  (forall fuel node st log reading log',
      run (graph_app Scenario.scripted_model Scenario.search_registry)
          fuel node st log <> (inl (TypeError reading), log')).
Proof.
  exact (@routing_never_reads_undefined jsstring
           (graph_app Scenario.scripted_model Scenario.search_registry)
           Scenario.scripted_model [] Scenario.search_registry
           (or_introl eq_refl)).
Defined.

(** C10. The agent node of the skills programs returns the model's
    answer alone as its update; a transcript returned by a Session holds
    no [SystemMessage]; and the model inputs after the first hold none
    either. *)
Theorem skills_prompt_stays_out_of_transcript :
  forall (json : Type) (modelWithTools : ChatModel json) skillsPrompt registry,
    (forall st log upd log',
        skills_agent modelWithTools skillsPrompt st log = (inr upd, log') ->
        exists c tcs, upd = [AIMessage c tcs]) /\
    (forall recursionLimit queries log transcript log',
        session (skills_app modelWithTools skillsPrompt registry) recursionLimit []
                queries log = (inr transcript, log') ->
        system_free transcript) /\
    (forall fuel query later log,
        exists inputs,
          snd (session (skills_app modelWithTools skillsPrompt registry) (S fuel) []
                       (query :: later) log)
          = log ++ [SystemMessage skillsPrompt; HumanMessage query] :: inputs /\
          Forall (fun inp => system_free inp) inputs).
Proof.
  intros json m prompt registry. split3.
  - intros st log upd log' H. apply skills_agent_inv in H.
    destruct H as [_ [(c & tcs & Hr) | (msg & Hr)]]; inversion Hr; eauto.
  - intros limit queries log transcript log' Hrun.
    destruct queries as [| query later].
    + inversion Hrun; subst. constructor.
    + destruct limit as [| fuel].
      * rewrite session_step in Hrun. discriminate Hrun.
      * apply skills_session_first in Hrun.
        destruct Hrun as (inputs & _ & _ & Hres).
        apply past_first_turn_system_free. now apply Hres.
  - intros fuel query later log.
    destruct (session (skills_app m prompt registry) (S fuel) [] (query :: later) log)
      as [r log'] eqn:Hrun.
    apply skills_session_first in Hrun.
    destruct Hrun as (inputs & -> & Hin & _).
    exists inputs. split; [reflexivity |].
    eapply Forall_impl; [| exact Hin].
    intros inp. apply past_first_turn_system_free.
Qed.

(* ================================================================= *)
(** * Facts on the values the loader captures *)

Section CapturedValues.

Implicit Types (s h v key content : jsstring).

(** What a key pattern captures: at least one code unit, none of them a
    line terminator. *)
Lemma key_body_groups key s gs s' :
  match_here (key_body key) s = Some (gs, s') ->
  exists v, gs = [v] /\ v <> [] /\ Forall (fun c => is_dot c = true) v.
Proof.
  unfold key_body. rewrite match_here_lit.
  destruct (strip_prefix key s) as [s0 |]; [| discriminate].
  rewrite match_here_rep. intros H.
  apply first_some_In in H. destruct H as (k & _ & Hk).
  unfold candidate in Hk.
  destruct (match_here [Rep Greedy is_dot 1 true] (skipn k s0))
    as [[gs1 s1] |] eqn:E; [| discriminate].
  inversion Hk; subst gs1 s1; clear Hk.
  rewrite match_here_rep in E.
  apply first_some_In in E. destruct E as (k2 & Hin & Hk2).
  apply counts_bound in Hin.
  unfold candidate in Hk2. cbn [match_here] in Hk2.
  inversion Hk2; subst; clear Hk2.
  destruct (@run_length_firstn is_dot (skipn k s0) k2) as [Hl Hf]; [lia |].
  exists (firstn k2 (skipn k s0)). split; [reflexivity |]. split; [| exact Hf].
  intros E. rewrite E in Hl. simpl in Hl. lia.
Qed.

Lemma key_group key h m :
  search (key_body key) [] h = Some m ->
  group 1 m <> [] /\ Forall (fun c => is_dot c = true) (group 1 m).
Proof.
  intros H. apply search_Some in H.
  destruct H as (a & b & _ & _ & Hb & _).
  apply key_body_groups in Hb. destruct Hb as (v & Hg & Hne & Hv).
  unfold group. rewrite Hg. cbn [Nat.sub nth]. split; assumption.
Qed.

Lemma trim_Forall (P : N -> Prop) s : Forall P s -> Forall P (trim s).
Proof.
  intros H. destruct (trim_split s) as (lead & trail & Hs & _).
  rewrite Hs in H. apply Forall_app in H as [_ H]. now apply Forall_app in H as [H _].
Qed.

Lemma trim_trimmed s : trimmed (trim s).
Proof.
  destruct (trim_split s) as (lead & trail & _ & _ & _ & Hh & Ht).
  split; assumption.
Qed.

Lemma dots_single_line v :
  Forall (fun c => is_dot c = true) v -> single_line v.
Proof.
  unfold single_line. apply Forall_impl. intros c H.
  unfold is_dot in H. now apply negb_true_iff in H.
Qed.

(** The fields of a descriptor. *)
Lemma parse_skill_shape content skillMdPath skill :
  parse_skill content skillMdPath = Some skill ->
  skill_path skill = skillMdPath /\
  single_line (name skill) /\ single_line (description skill) /\
  trimmed (name skill) /\ trimmed (description skill) /\
  trimmed (instructions skill).
Proof.
  intros H. split; [eapply parse_skill_path; exact H |].
  unfold parse_skill in H.
  destruct (exec frontmatter_re content) as [m |]; [| discriminate].
  destruct (exec name_re (group 1 m)) as [nm |] eqn:En; [| discriminate].
  destruct (exec description_re (group 1 m)) as [dm |] eqn:Ed; [| discriminate].
  inversion H; subst; clear H. cbn [name description instructions].
  unfold exec in En, Ed. cbn [anchored name_re description_re] in En, Ed.
  change (Regex.body _) with (key_body (js "name:")) in En.
  change (Regex.body _) with (key_body (js "description:")) in Ed.
  apply key_group in En as [_ Hn]. apply key_group in Ed as [_ Hd].
  split; [apply dots_single_line, trim_Forall, Hn |].
  split; [apply dots_single_line, trim_Forall, Hd |].
  split; [apply trim_trimmed |]. split; apply trim_trimmed.
Qed.

End CapturedValues.

(* ================================================================= *)
(** * Further properties: the skill loader *)

(** X1. Every descriptor [loadSkillsMetadata] returns comes from a
    subdirectory of the listing and names the file [SKILL.md] directly
    under that entry's path; its name and its description hold no line
    terminator, and its name, description and instructions have no white
    space at either end. *)
Theorem loaded_descriptors_well_shaped :
  forall (backend : FilesystemBackend) skillsPath skillDirs out skills out' skill,
    lsInfo backend skillsPath = inr skillDirs ->
    loadSkillsMetadata backend skillsPath out = (inr skills, out') ->
    In skill skills ->
    (exists dir, In dir skillDirs /\ is_dir dir = true /\
                 skill_path skill = path dir ++ js "SKILL.md") /\
    single_line (name skill) /\ single_line (description skill) /\
    trimmed (name skill) /\ trimmed (description skill) /\
    trimmed (instructions skill).
Proof.
  intros backend skillsPath skillDirs out skills out' skill Hls Hload Hin.
  unfold loadSkillsMetadata, bind, await in Hload. rewrite Hls in Hload.
  cbn in Hload. rewrite load_loop_eq in Hload.
  inversion Hload; subst; clear Hload. cbn [List.app] in Hin.
  apply in_flat_map in Hin. destruct Hin as (dir & Hdir & Hin).
  unfold loaded in Hin.
  destruct (is_dir dir) eqn:Ed; [| contradiction].
  destruct (readRaw backend (skillMdPath_of dir)) as [msg | fileData];
    [contradiction |].
  destruct (parse_skill (join LF (content fileData)) (skillMdPath_of dir))
    as [sk |] eqn:Ep; [| contradiction].
  destruct Hin as [-> | []].
  apply parse_skill_shape in Ep. destruct Ep as (Hp & Hrest).
  split; [| exact Hrest].
  exists dir. split; [exact Hdir |]. split; [exact Ed | exact Hp].
Qed.

(** Scenario A: the skill [foo]. *)
Lemma loaded_descriptors_well_shaped_witness :
  (exists dir, In dir [Files.foo_dir; Files.bar_dir] /\ is_dir dir = true /\
               js "/skills/foo/SKILL.md" = path dir ++ js "SKILL.md") /\
  single_line (js "foo") /\ single_line (js "Foo tool") /\
  trimmed (js "foo") /\ trimmed (js "Foo tool") /\ trimmed (js "Do X").
Proof.
  exact (@loaded_descriptors_well_shaped Files.scenario_a (js "/skills")
           [Files.foo_dir; Files.bar_dir] [] _ _
           {| name := js "foo"; description := js "Foo tool";
              skill_path := js "/skills/foo/SKILL.md";
              instructions := js "Do X" |}
           eq_refl eq_refl (or_introl eq_refl)).
Defined.

(** X2. A [name:] key with nothing after it on its line takes its value
    from the next line: the white space the pattern skips includes the
    line feed, so that the [description] line, key and all, becomes the
    name. *)
Theorem empty_name_takes_next_line :
  forall D body skillMdPath,
    plain_value D = true ->
    parse_skill (js "---" ++ LF ++ (js "name:" ++ LF ++ js "description: " ++ D) ++
                 LF ++ js "---" ++ LF ++ body) skillMdPath
    = Some {| name := trim (js "description: " ++ D);
              description := trim D;
              skill_path := skillMdPath;
              instructions := trim body |}.
Proof.
  intros D body skillMdPath HD.
  destruct (plain_value_inv D HD) as (d & D' & -> & Hd & HDdot & HDcol & HDlf).
  rewrite parse_skill_delimited.
  - unfold exec. cbn [anchored name_re description_re].
    change (Regex.body name_re) with (key_body (js "name:")).
    change (Regex.body description_re) with (key_body (js "description:")).
    change (js "name:" ++ LF ++ js "description: " ++ d :: D')
      with (js "name:" ++ LF ++ 100%N :: js "escription: " ++ d :: D') at 1.
    rewrite key_search_hit_end;
      [| repeat constructor | reflexivity
       | change (100%N :: js "escription: " ++ d :: D')
           with (js "description: " ++ d :: D');
         apply Forall_app; split; [repeat constructor | exact HDdot]].
    unfold key_body.
    change (js "name:" ++ LF ++ js "description: " ++ d :: D')
      with (110 :: 97 :: 109 :: 101 :: 58 :: 10 :: js "description: " ++ d :: D')%N.
    do 6 (rewrite search_skip_one by reflexivity).
    change (js "description: " ++ d :: D')
      with (js "description:" ++ [32%N] ++ d :: D').
    fold (key_body (js "description:")).
    rewrite key_search_hit_end;
      [reflexivity | repeat constructor | assumption | assumption].
  - discriminate.
  - change (tl (js "name:" ++ LF ++ js "description: " ++ d :: D'))
      with (js "ame:" ++ LF ++ (js "description: " ++ d :: D')).
    apply occurs_two_lines.
    + repeat constructor; discriminate.
    + apply Forall_app. split; [repeat constructor; discriminate | exact HDlf].
    + reflexivity.
Qed.

Lemma empty_name_takes_next_line_witness :
  parse_skill (js "---" ++ LF ++ (js "name:" ++ LF ++ js "description: " ++ js "Foo tool") ++
               LF ++ js "---" ++ LF ++ js "Do X") (js "/skills/foo/SKILL.md")
  = Some {| name := trim (js "description: " ++ js "Foo tool");
            description := trim (js "Foo tool");
            skill_path := js "/skills/foo/SKILL.md";
            instructions := trim (js "Do X") |}.
Proof.
  exact (@empty_name_takes_next_line (js "Foo tool") (js "Do X")
           (js "/skills/foo/SKILL.md") eq_refl).
Defined.

(** X3. A listing that fails makes [loadSkillsMetadata] fail with the
    same message, nothing written.  Otherwise the console receives one
    warning for each subdirectory whose instruction file cannot be read,
    in the order of the listing, and nothing else: entries that are no
    directories and files that are read but not accepted leave no
    trace. *)
Theorem loader_warnings :
  forall (backend : FilesystemBackend) skillsPath out,
    (forall msg,
        lsInfo backend skillsPath = inl msg ->
        loadSkillsMetadata backend skillsPath out = (inl (Error msg), out)) /\
    (forall skillDirs,
        lsInfo backend skillsPath = inr skillDirs ->
        snd (loadSkillsMetadata backend skillsPath out) =
        out ++ map (fun dir => js "Warning: Could not load skill from " ++
                               path dir ++ js "SKILL.md")
                   (filter (unreadable backend) skillDirs)).
Proof.
  intros backend skillsPath out. split.
  - intros msg Hls. unfold loadSkillsMetadata, bind, await. now rewrite Hls.
  - intros skillDirs Hls. unfold loadSkillsMetadata, bind, await. rewrite Hls.
    cbn. rewrite load_loop_eq. cbn [snd]. f_equal. clear Hls.
    induction skillDirs as [| dir more IH]; [reflexivity |].
    cbn [flat_map filter]. rewrite IH.
    unfold warned, unreadable.
    destruct (is_dir dir); [| reflexivity].
    destruct (readRaw backend (skillMdPath_of dir)); reflexivity.
Qed.

(* ================================================================= *)
(** * Further properties: the skills prompts *)


Section PromptEntries.

Lemma entries_by_fields (entry : Skill -> jsstring) :
  (forall a b, name a = name b -> description a = description b ->
               skill_path a = skill_path b -> entry a = entry b) ->
  forall skills skills',
    map name skills = map name skills' ->
    map description skills = map description skills' ->
    map skill_path skills = map skill_path skills' ->
    map entry skills = map entry skills'.
Proof.
  intros Hentry.
  induction skills as [| a skills IH]; intros [| b skills'] Hn Hd Hp;
    try discriminate; [reflexivity |].
  simpl in *. inversion Hn; inversion Hd; inversion Hp.
  f_equal; [now apply Hentry | now apply IH].
Qed.

End PromptEntries.

(** X5. The instructions of a skill do not enter the skills prompt of
    either program: two lists of skills with the same names,
    descriptions and paths give the same prompt. *)
Theorem prompt_leaves_instructions_out :
  forall skills skills',
    map name skills = map name skills' ->
    map description skills = map description skills' ->
    map skill_path skills = map skill_path skills' ->
    Prompts.skillsPrompt skills = Prompts.skillsPrompt skills' /\
    Prompts.skillsPrompt_claude_tools skills
      = Prompts.skillsPrompt_claude_tools skills'.
Proof.
  intros skills skills' Hn Hd Hp.
  unfold Prompts.skillsPrompt, Prompts.skillsPrompt_claude_tools. split.
  - rewrite (@entries_by_fields Prompts.skill_entry) with (skills' := skills');
      try assumption; [reflexivity |].
    intros a b Ha Hb Hc. unfold Prompts.skill_entry. now rewrite Ha, Hb, Hc.
  - rewrite (@entries_by_fields Prompts.skill_entry_actual) with (skills' := skills');
      try assumption; [reflexivity |].
    intros a b Ha Hb Hc. unfold Prompts.skill_entry_actual. now rewrite Ha, Hb, Hc.
Qed.

(** The skill [foo] with and without its instructions. *)
Lemma prompt_leaves_instructions_out_witness :
  Prompts.skillsPrompt
    [{| name := js "foo"; description := js "Foo tool";
        skill_path := js "/skills/foo/SKILL.md"; instructions := js "Do X" |}]
  = Prompts.skillsPrompt
    [{| name := js "foo"; description := js "Foo tool";
        skill_path := js "/skills/foo/SKILL.md"; instructions := [] |}] /\
  Prompts.skillsPrompt_claude_tools
    [{| name := js "foo"; description := js "Foo tool";
        skill_path := js "/skills/foo/SKILL.md"; instructions := js "Do X" |}]
  = Prompts.skillsPrompt_claude_tools
    [{| name := js "foo"; description := js "Foo tool";
        skill_path := js "/skills/foo/SKILL.md"; instructions := [] |}].
Proof.
  exact (@prompt_leaves_instructions_out
           [{| name := js "foo"; description := js "Foo tool";
               skill_path := js "/skills/foo/SKILL.md"; instructions := js "Do X" |}]
           [{| name := js "foo"; description := js "Foo tool";
               skill_path := js "/skills/foo/SKILL.md"; instructions := [] |}]
           eq_refl eq_refl eq_refl).
Defined.

(* ================================================================= *)
(** * Facts on the string methods *)

Section StrFacts.

Implicit Types (s sep cur old new lit before : jsstring).

Lemma split_from_not_nil sep : forall s k cur, Str.split_from sep k cur s <> [].
Proof.
  induction s as [| c s IH]; intros k cur; simpl; [discriminate |].
  destruct k; [| apply IH].
  destruct (strip_prefix sep (c :: s)); [discriminate | apply IH].
Qed.

Lemma join_cons sep x (l : list jsstring) :
  l <> [] -> join sep (x :: l) = x ++ sep ++ join sep l.
Proof. destruct l; [contradiction | reflexivity]. Qed.

(** What a separator just met leaves to pass. *)
Lemma strip_prefix_skip sep c s after :
  strip_prefix sep (c :: s) = Some after ->
  sep <> [] ->
  sep ++ skipn (length sep - 1) s = c :: s /\
  after = skipn (length sep - 1) s /\ length sep - 1 <= length s.
Proof.
  intros H Hne. apply strip_prefix_Some in H.
  destruct sep as [| x r]; [contradiction |].
  simpl in H. inversion H; subst.
  simpl. rewrite Nat.sub_0_r, skipn_length_app, length_app.
  repeat split; lia.
Qed.

(** Joining the pieces gives the text back. *)
Lemma join_split_from sep :
  sep <> [] ->
  forall s k cur, join sep (Str.split_from sep k cur s) = cur ++ skipn k s.
Proof.
  intros Hne. induction s as [| c s IH]; intros k cur.
  - destruct k; simpl; now rewrite app_nil_r.
  - destruct k as [| k]; cbn [Str.split_from skipn].
    + destruct (strip_prefix sep (c :: s)) as [after |] eqn:E.
      * rewrite join_cons by apply split_from_not_nil.
        rewrite IH. cbn [app].
        destruct (strip_prefix_skip _ _ E Hne) as (Hs & _ & _).
        now rewrite Hs.
      * rewrite IH. cbn [skipn]. now rewrite <- app_assoc.
    + apply IH.
Qed.

Lemma join_split sep s : sep <> [] -> join sep (Str.split sep s) = s.
Proof.
  intros Hne. unfold Str.split.
  destruct sep as [| x r]; [contradiction |].
  now rewrite join_split_from.
Qed.

(** The pieces are one more than the matches of the literal. *)
Lemma split_from_count sep :
  sep <> [] ->
  forall s k cur,
    length (Str.split_from sep k cur s) = S (Str.count_from sep k s).
Proof.
  intros Hne. induction s as [| c s IH]; intros k cur.
  - simpl. destruct sep; [contradiction | reflexivity].
  - destruct k as [| k]; cbn [Str.split_from Str.count_from].
    + destruct (strip_prefix sep (c :: s)); cbn [length]; now rewrite IH.
    + apply IH.
Qed.

(** *** A separator of one code unit *)

Lemma split_char_hit x cur s :
  Str.split_from [x] 0 cur (x :: s) = cur :: Str.split_from [x] 0 [] s.
Proof.
  cbn [Str.split_from strip_prefix]. unfold code_eqb. now rewrite N.eqb_refl.
Qed.

Lemma split_char_pass x : forall l cur s,
  Forall (fun c => c <> x) l ->
  Str.split_from [x] 0 cur (l ++ s) = Str.split_from [x] 0 (cur ++ l) s.
Proof.
  induction l as [| c l IH]; intros cur s Hl.
  - now rewrite app_nil_r.
  - inversion Hl; subst. cbn [app Str.split_from strip_prefix].
    destruct (code_eqb x c) eqn:E.
    + apply code_eqb_eq in E. now subst.
    + rewrite IH by assumption. now rewrite <- app_assoc.
Qed.

Lemma split_char_end x cur :
  Str.split_from [x] 0 cur [] = [cur].
Proof. reflexivity. Qed.

(** Splitting joined pieces that hold no separator gives the pieces. *)
Lemma split_join_char x : forall pieces,
  pieces <> [] ->
  Forall (Forall (fun c => c <> x)) pieces ->
  Str.split [x] (join [x] pieces) = pieces.
Proof.
  unfold Str.split.
  induction pieces as [| p more IH]; intros Hne Hfree; [contradiction |].
  inversion Hfree; subst.
  destruct more as [| q more].
  - cbn [join]. pose proof (@split_char_pass x p [] [] H1) as H.
    rewrite app_nil_r in H. exact H.
  - rewrite join_cons by discriminate.
    rewrite split_char_pass by assumption.
    cbn [app]. rewrite split_char_hit. f_equal.
    apply IH; [discriminate | assumption].
Qed.

Lemma split_char_free x : forall s cur,
  Forall (fun c => c <> x) cur ->
  Forall (Forall (fun c => c <> x)) (Str.split_from [x] 0 cur s).
Proof.
  induction s as [| c s IH]; intros cur Hcur.
  - repeat constructor. exact Hcur.
  - cbn [Str.split_from strip_prefix].
    destruct (code_eqb x c) eqn:E.
    + constructor; [exact Hcur |]. apply IH. constructor.
    + apply IH. apply Forall_app. split; [exact Hcur |].
      repeat constructor. intros ->.
      unfold code_eqb in E. now rewrite N.eqb_refl in E.
Qed.

(** *** Substitution *)

Lemma get_substitution_plain matched before after : forall template,
  Tools.dollar_free template ->
  Str.get_substitution matched before after template = template.
Proof.
  induction template as [| c t IH]; intros H; [reflexivity |].
  inversion H; subst. cbn [Str.get_substitution].
  destruct (c =? 36)%N eqn:E.
  - apply N.eqb_eq in E. contradiction.
  - f_equal. now apply IH.
Qed.

(** [$&] between two plain texts stands for the matched text. *)
Lemma get_substitution_matched matched before after a b :
  Tools.dollar_free a -> Tools.dollar_free b ->
  Str.get_substitution matched before after (a ++ js "$&" ++ b)
  = a ++ matched ++ b.
Proof.
  intros Ha Hb. induction a as [| c a IH].
  - cbn. f_equal. now apply get_substitution_plain.
  - inversion Ha; subst. cbn [app Str.get_substitution].
    destruct (c =? 36)%N eqn:E.
    + apply N.eqb_eq in E. contradiction.
    + f_equal. now apply IH.
Qed.

(** *** The first occurrence *)

(** The leftmost occurrence is the one replaced. *)
Lemma replace_from_spec old new : forall s before,
  (exists pre post,
      s = pre ++ old ++ post /\
      (forall a1 a2, pre = a1 ++ a2 -> a2 <> [] ->
         strip_prefix old (a2 ++ old ++ post) = None) /\
      Str.replace_from old new before s =
        pre ++ Str.get_substitution old (before ++ pre) post new ++ post)
  \/ (occurs old s = false /\ Str.replace_from old new before s = s).
Proof.
  induction s as [| c s IH]; intros before.
  - cbn [Str.replace_from occurs].
    destruct (strip_prefix old []) as [after |] eqn:E.
    + left. exists [], after. apply strip_prefix_Some in E.
      rewrite app_nil_r. cbn [app]. split; [exact E |]. split; [| reflexivity].
      intros a1 a2 Ea Hne. destruct a1, a2; try discriminate. contradiction.
    + right. split; reflexivity.
  - cbn [Str.replace_from occurs].
    destruct (strip_prefix old (c :: s)) as [after |] eqn:E.
    + left. exists [], after. apply strip_prefix_Some in E.
      rewrite app_nil_r. cbn [app]. split; [exact E |]. split; [| reflexivity].
      intros a1 a2 Ea Hne. destruct a1, a2; try discriminate. contradiction.
    + destruct (IH (before ++ [c])) as [(pre & post & Hs & Hfirst & Hr) | [Hocc Hr]].
      * left. exists (c :: pre), post. subst s. split; [reflexivity |].
        split.
        -- intros a1 a2 Ea Hne. destruct a1 as [| x a1]; simpl in Ea.
           ++ subst a2. exact E.
           ++ inversion Ea; subst. now apply (Hfirst a1 a2).
        -- rewrite Hr, <- app_assoc. reflexivity.
      * right. split; [exact Hocc | now rewrite Hr].
Qed.

Lemma occurs_false_count old : forall s,
  old <> [] -> occurs old s = false -> Str.count_from old 0 s = 0.
Proof.
  intros s Hne. induction s as [| c s IH]; intros H.
  - destruct old; [contradiction | reflexivity].
  - cbn [occurs Str.count_from] in *.
    destruct (strip_prefix old (c :: s)); [discriminate | now apply IH].
Qed.

Lemma occurs_false_replaceAll old new : forall s before,
  old <> [] -> occurs old s = false ->
  Str.replaceAll_from old new 0 before s = s.
Proof.
  intros s before Hne. revert before.
  induction s as [| c s IH]; intros before H.
  - destruct old; [contradiction | reflexivity].
  - cbn [occurs Str.replaceAll_from] in *.
    destruct (strip_prefix old (c :: s)); [discriminate |].
    f_equal. now apply IH.
Qed.

(** Every replacement trades the length of [old] for that of [new]. *)
Lemma replaceAll_from_length old new :
  old <> [] -> Tools.dollar_free new ->
  forall s k before,
    length (Str.replaceAll_from old new k before s)
    + Str.count_from old k s * length old + Nat.min k (length s)
    = length s + Str.count_from old k s * length new.
Proof.
  intros Hne Hnew. induction s as [| c s IH]; intros k before.
  - destruct old; [contradiction |]. simpl. now rewrite Nat.min_0_r.
  - destruct k as [| k]; cbn [Str.replaceAll_from Str.count_from length].
    + destruct (strip_prefix old (c :: s)) as [after |] eqn:E.
      * destruct (strip_prefix_skip _ _ E Hne) as (_ & _ & Hlen).
        specialize (IH (length old - 1) (before ++ [c])).
        rewrite Nat.min_l in IH by exact Hlen.
        rewrite get_substitution_plain by exact Hnew.
        destruct old as [| x r]; [contradiction |].
        rewrite !length_app. cbn [length app] in *. lia.
      * specialize (IH 0 (before ++ [c])). cbn [length]. simpl Nat.min in *. lia.
    + specialize (IH k (before ++ [c])). simpl Nat.min. lia.
Qed.

(** *** Numbers *)

Lemma digits_are_digits d : Forall is_digit (Str.digits d).
Proof.
  induction d; simpl; constructor; try assumption; unfold is_digit; lia.
Qed.

Lemma number_to_string_digits n : Forall is_digit (Str.number_to_string n).
Proof. apply digits_are_digits. Qed.

(** *** The escaped pattern *)

(** The escaped pattern denotes the text it was made from. *)
Lemma pattern_literal_escaped : forall s,
  Str.pattern_literal (Tools.escapedOldString s) = Some s.
Proof.
  induction s as [| c s IH]; [reflexivity |].
  unfold Tools.escapedOldString in *. cbn [flat_map].
  destruct (Str.is_syntax_character c) eqn:E.
  - cbn [app Str.pattern_literal]. rewrite N.eqb_refl, E, IH. reflexivity.
  - cbn [app Str.pattern_literal]. rewrite E.
    destruct (c =? 92)%N eqn:E92.
    + apply N.eqb_eq in E92. subst c. discriminate E.
    + now rewrite IH.
Qed.

End StrFacts.

(* ================================================================= *)
(** * Facts on [read_file] *)

Section ReadFacts.

Implicit Types (content line : jsstring) (lines : list jsstring).

Lemma lines_not_nil content : Str.split LF content <> [].
Proof. apply split_from_not_nil. Qed.

Lemma lines_no_LF content : Forall no_LF (Str.split LF content).
Proof. apply split_char_free. constructor. Qed.

Lemma join_lines content : join LF (Str.split LF content) = content.
Proof. apply join_split. discriminate. Qed.

Lemma firstn_min_length {A} (n : nat) (l : list A) :
  firstn (Nat.min n (length l)) l = firstn n l.
Proof.
  destruct (Nat.le_ge_cases n (length l)) as [H | H].
  - now rewrite Nat.min_l.
  - rewrite Nat.min_r by exact H. now rewrite firstn_all, firstn_all2.
Qed.

(** The slice the tool takes. *)
Lemma read_slice lines offset limit :
  let startLine := Tools.or_zero offset in
  Str.slice startLine
    (if Tools.truthy limit then (startLine + Tools.or_zero limit)%N
     else N.min (startLine + 2000) (N.of_nat (length lines)))
    lines
  = firstn (N.to_nat (line_cap limit)) (skipn (N.to_nat (Tools.or_zero offset)) lines).
Proof.
  intros startLine. unfold Str.slice, line_cap.
  destruct (Tools.truthy limit).
  - f_equal. lia.
  - rewrite <- (firstn_min_length (N.to_nat 2000)). f_equal.
    rewrite length_skipn. lia.
Qed.

Lemma read_lines_eq content offset limit :
  Tools.read_lines content offset limit =
  join LF (Str.mapi (label (Tools.or_zero offset))
             (firstn (N.to_nat (line_cap limit))
                (skipn (N.to_nat (Tools.or_zero offset)) (Str.split LF content)))).
Proof.
  unfold Tools.read_lines. cbv zeta. rewrite read_slice. reflexivity.
Qed.

Lemma after_arrow_label startLine line idx :
  Tools.after_arrow (label startLine line idx) = line.
Proof.
  unfold label.
  pose proof (number_to_string_digits (startLine + N.of_nat idx + 1)) as Hd.
  induction Hd as [| c ds Hc _ IH]; simpl.
  - reflexivity.
  - destruct (c =? 8594)%N eqn:E; [| exact IH].
    apply N.eqb_eq in E. unfold is_digit in Hc. lia.
Qed.

Lemma before_arrow_label startLine line idx :
  Tools.before_arrow (label startLine line idx)
  = Str.number_to_string (startLine + N.of_nat idx + 1).
Proof.
  unfold label.
  pose proof (number_to_string_digits (startLine + N.of_nat idx + 1)) as Hd.
  induction Hd as [| c ds Hc _ IH]; simpl.
  - reflexivity.
  - destruct (c =? 8594)%N eqn:E; [| now f_equal].
    apply N.eqb_eq in E. unfold is_digit in Hc. lia.
Qed.

Lemma label_no_LF startLine line idx :
  no_LF line -> no_LF (label startLine line idx).
Proof.
  intros Hl. unfold label, no_LF. apply Forall_app. split.
  - eapply Forall_impl; [| apply number_to_string_digits].
    intros c Hc. unfold is_digit in Hc. lia.
  - constructor; [discriminate | exact Hl].
Qed.

Lemma mapi_from_facts startLine : forall lines i,
  Forall no_LF lines ->
  map Tools.after_arrow (Str.mapi_from (label startLine) i lines) = lines /\
  map Tools.before_arrow (Str.mapi_from (label startLine) i lines)
    = map (fun k => Str.number_to_string (startLine + N.of_nat k + 1))
          (seq i (length lines)) /\
  Forall no_LF (Str.mapi_from (label startLine) i lines) /\
  length (Str.mapi_from (label startLine) i lines) = length lines.
Proof.
  induction lines as [| l lines IH]; intros i H.
  - repeat split; constructor.
  - inversion H; subst. destruct (IH (S i) H3) as (Ha & Hb & Hc & Hd).
    cbn [Str.mapi_from map seq length].
    rewrite after_arrow_label, before_arrow_label, Ha, Hb, Hd.
    repeat split. constructor; [now apply label_no_LF | exact Hc].
Qed.

Lemma Forall_firstn_skipn {A} (P : A -> Prop) (l : list A) n m :
  Forall P l -> Forall P (firstn n (skipn m l)).
Proof.
  intros H.
  assert (Hs : Forall P (skipn m l)).
  { rewrite <- (firstn_skipn m l) in H. now apply Forall_app in H. }
  rewrite <- (firstn_skipn n (skipn m l)) in Hs. now apply Forall_app in Hs.
Qed.

End ReadFacts.

Section ReadOutput.

Implicit Types (content : jsstring).

(** The output, split at line feeds, is the labelled slice. *)
Lemma read_output_lines content offset limit :
  (Tools.or_zero offset < N.of_nat (length (Str.split LF content)))%N ->
  let slice := firstn (N.to_nat (line_cap limit))
                 (skipn (N.to_nat (Tools.or_zero offset)) (Str.split LF content)) in
  slice <> [] /\
  Str.split LF (Tools.read_lines content offset limit)
  = Str.mapi (label (Tools.or_zero offset)) slice /\
  Forall no_LF slice.
Proof.
  intros Hstart slice.
  assert (Hfree : Forall no_LF slice)
    by (apply Forall_firstn_skipn, lines_no_LF).
  assert (Hcap : line_cap limit <> 0%N).
  { unfold line_cap, Tools.truthy, Tools.or_zero.
    destruct limit as [l |]; [| discriminate].
    destruct (l =? 0)%N eqn:E; [discriminate |]. now apply N.eqb_neq in E. }
  assert (Hlen : length slice <> 0).
  { unfold slice. rewrite length_firstn, length_skipn. lia. }
  split; [now destruct slice |]. split; [| exact Hfree].
  rewrite read_lines_eq. fold slice.
  destruct (mapi_from_facts (Tools.or_zero offset) 0 Hfree) as (_ & _ & Hno & Hl).
  apply split_join_char; [| exact Hno].
  unfold Str.mapi. intros E. rewrite E in Hl. simpl in Hl. lia.
Qed.

Lemma read_output_fields content offset limit :
  (Tools.or_zero offset < N.of_nat (length (Str.split LF content)))%N ->
  let out := Str.split LF (Tools.read_lines content offset limit) in
  map Tools.after_arrow out
    = firstn (N.to_nat (line_cap limit))
        (skipn (N.to_nat (Tools.or_zero offset)) (Str.split LF content)) /\
  map Tools.before_arrow out
    = map (fun k => Str.number_to_string (Tools.or_zero offset + N.of_nat k + 1))
          (seq 0 (length out)).
Proof.
  intros Hstart out. unfold out.
  destruct (read_output_lines content offset limit Hstart) as (_ & -> & Hfree).
  destruct (mapi_from_facts (Tools.or_zero offset) 0 Hfree) as (Ha & Hb & _ & Hl).
  unfold Str.mapi. rewrite Hl. split; assumption.
Qed.

Lemma read_whole content :
  length (Str.split LF content) <= 2000 ->
  join LF (map Tools.after_arrow
             (Str.split LF (Tools.read_lines content None None))) = content.
Proof.
  intros Hlen.
  assert (Hstart : (Tools.or_zero None < N.of_nat (length (Str.split LF content)))%N).
  { pose proof (lines_not_nil content) as Hne.
    destruct (Str.split LF content); [contradiction | simpl; lia]. }
  destruct (read_output_fields content None None Hstart) as [-> _].
  cbn [Tools.or_zero N.to_nat skipn].
  rewrite firstn_all2 by (unfold line_cap; simpl Tools.truthy; cbv iota; lia).
  apply join_lines.
Qed.

End ReadOutput.

(* ================================================================= *)
(** * Further properties: the file tools *)




(** X8. Reading a file of at most 2000 lines without [offset] and
    [limit], and dropping the line numbers, gives the content of the
    file back. *)
Theorem read_file_round_trip :
  forall content,
    length (Str.split LF content) <= 2000 ->
    join LF (map Tools.after_arrow
               (Str.split LF (Tools.read_lines content None None))) = content.
Proof.
  intros content Hlen. now apply read_whole.
Qed.

(** A file of two lines, the second empty. *)
Lemma read_file_round_trip_witness :
  join LF (map Tools.after_arrow
             (Str.split LF (Tools.read_lines (js "Do X" ++ LF) None None)))
  = js "Do X" ++ LF.
Proof.
  apply (@read_file_round_trip (js "Do X" ++ LF)).
  vm_compute. lia.
Defined.

(* ================================================================= *)
(** * Facts on [edit_file] *)

Section EditFacts.

Variable FS : Type.
Variable fsm : Tools.FsModule FS.
Variable pm : Tools.PathModule.

Implicit Types (fs : FS) (content old new file_path : jsstring).

Lemma str_eqb_true : forall a b : jsstring, str_eqb a b = true <-> a = b.
Proof.
  induction a as [| x a IH]; intros [| y b]; simpl; split; intros H;
    try discriminate; try reflexivity.
  - apply andb_true_iff in H as [Hx Hab]. apply code_eqb_eq in Hx.
    apply IH in Hab. now subst.
  - inversion H; subst. apply andb_true_iff. split.
    + now apply code_eqb_eq.
    + now apply IH.
Qed.

Lemma occurs_empty s : occurs [] s = true.
Proof. destruct s; reflexivity. Qed.

Lemma occurrences_count old content :
  old <> [] ->
  Tools.occurrences_of old content = Z.of_nat (Str.count_from old 0 content).
Proof.
  intros Hne. unfold Tools.occurrences_of, Str.split.
  destruct old as [| x r]; [contradiction |].
  rewrite split_from_count by discriminate. lia.
Qed.

Lemma occurrences_empty content :
  Tools.occurrences_of [] content = (Z.of_nat (length content) - 1)%Z.
Proof. unfold Tools.occurrences_of, Str.split. now rewrite length_map. Qed.

(** With one occurrence counted, [replace] works on the leftmost
    place where [old] stands. *)
Lemma replace_single old new content :
  Tools.occurrences_of old content = 1%Z ->
  exists pre post,
    content = pre ++ old ++ post /\
    (forall a1 a2, pre = a1 ++ a2 -> a2 <> [] ->
       strip_prefix old (a2 ++ old ++ post) = None) /\
    Str.replace old new content
      = pre ++ Str.get_substitution old pre post new ++ post.
Proof.
  intros Hocc. unfold Str.replace.
  destruct (replace_from_spec old new content [])
    as [(pre & post & Hs & Hfirst & Hr) | [Hno _]].
  - exists pre, post. auto.
  - exfalso. destruct old as [| x r].
    + now rewrite occurs_empty in Hno.
    + rewrite occurrences_count in Hocc by discriminate.
      rewrite occurs_false_count in Hocc by (discriminate || assumption).
      discriminate.
Qed.

(** The single-occurrence branch, once the file is read. *)
Lemma editTool_single file_path old new fs content :
  str_eqb old new = false ->
  Tools.readFileSync fsm fs (Tools.absolutePath_of pm file_path) = inr content ->
  Tools.occurrences_of old content = 1%Z ->
  Tools.editTool fsm pm file_path old new false fs =
  match Tools.writeFileSync fsm fs (Tools.absolutePath_of pm file_path)
          (Str.replace old new content) with
  | inr fs' => (inr (js "File edited: " ++ file_path), fs')
  | inl msg => (inr (js "Error: " ++ msg), fs)
  end.
Proof.
  intros Hdiff Hread Hocc.
  unfold Tools.editTool, Tools.or_error_text, try_catch, bind,
    Tools.read_file, Tools.write_file, ret.
  rewrite Hdiff, Hread, Hocc.
  change (1 =? 0)%Z with false. change (1 <? 1)%Z with false. cbv beta iota.
  destruct (Tools.writeFileSync fsm fs _ _); reflexivity.
Qed.

Lemma editTool_all file_path old new fs content :
  str_eqb old new = false ->
  Tools.readFileSync fsm fs (Tools.absolutePath_of pm file_path) = inr content ->
  Tools.editTool fsm pm file_path old new true fs =
  match Tools.writeFileSync fsm fs (Tools.absolutePath_of pm file_path)
          (Str.replaceAll old new content) with
  | inr fs' =>
      (inr (js "Replaced " ++
            Str.number_to_string (N.of_nat (Str.count_from old 0 content)) ++
            js " occurrence(s): " ++ file_path), fs')
  | inl msg => (inr (js "Error: " ++ msg), fs)
  end.
Proof.
  intros Hdiff Hread.
  unfold Tools.editTool, Tools.or_error_text, try_catch, bind,
    Tools.read_file, Tools.write_file, Tools.match_count, ret.
  rewrite Hdiff, Hread, pattern_literal_escaped.
  destruct (Tools.writeFileSync fsm fs _ _); reflexivity.
Qed.

End EditFacts.

(* ================================================================= *)
(** * Further properties: [edit_file] and [write_file] *)

Section EditBranches.

Variable FS : Type.
Variable fsm : Tools.FsModule FS.
Variable pm : Tools.PathModule.

Implicit Types (fs : FS) (content old new file_path : jsstring).

(** The branch that writes, for a count that is neither zero nor above
    one. *)
Lemma editTool_writes file_path old new fs content :
  str_eqb old new = false ->
  Tools.readFileSync fsm fs (Tools.absolutePath_of pm file_path) = inr content ->
  (Tools.occurrences_of old content =? 0)%Z = false ->
  (1 <? Tools.occurrences_of old content)%Z = false ->
  Tools.editTool fsm pm file_path old new false fs =
  match Tools.writeFileSync fsm fs (Tools.absolutePath_of pm file_path)
          (Str.replace old new content) with
  | inr fs' => (inr (js "File edited: " ++ file_path), fs')
  | inl msg => (inr (js "Error: " ++ msg), fs)
  end.
Proof.
  intros Hdiff Hread H0 H1.
  unfold Tools.editTool, Tools.or_error_text, try_catch, bind,
    Tools.read_file, Tools.write_file, ret.
  rewrite Hdiff, Hread, H0, H1.
  destruct (Tools.writeFileSync fsm fs _ _); reflexivity.
Qed.

Lemma editTool_not_found file_path old new fs content :
  str_eqb old new = false ->
  Tools.readFileSync fsm fs (Tools.absolutePath_of pm file_path) = inr content ->
  Tools.occurrences_of old content = 0%Z ->
  Tools.editTool fsm pm file_path old new false fs =
  (inr (js "Error: old_string not found"), fs).
Proof.
  intros Hdiff Hread Hocc.
  unfold Tools.editTool, Tools.or_error_text, try_catch, bind,
    Tools.read_file, ret.
  now rewrite Hdiff, Hread, Hocc.
Qed.

Lemma editTool_ambiguous file_path old new fs content :
  str_eqb old new = false ->
  Tools.readFileSync fsm fs (Tools.absolutePath_of pm file_path) = inr content ->
  (1 < Tools.occurrences_of old content)%Z ->
  Tools.editTool fsm pm file_path old new false fs =
  (inr (js "Error: old_string found in " ++
        Str.number_to_string (Z.to_N (Tools.occurrences_of old content)) ++
        js " places. Must be unique. Include more context or use replace_all=true."),
   fs).
Proof.
  intros Hdiff Hread Hocc.
  unfold Tools.editTool, Tools.or_error_text, try_catch, bind,
    Tools.read_file, ret.
  rewrite Hdiff, Hread.
  replace (Tools.occurrences_of old content =? 0)%Z with false
    by (symmetry; apply Z.eqb_neq; lia).
  replace (1 <? Tools.occurrences_of old content)%Z with true
    by (symmetry; apply Z.ltb_lt; lia).
  reflexivity.
Qed.

(** X9. [edit_file] refuses without touching any file when the two
    strings are equal (the file is not even read), when the file cannot
    be read, when [old_string] does not occur, and when it is counted
    more than once. *)
Theorem edit_refusals_leave_files :
  forall file_path old new fs,
    (str_eqb old new = true ->
     forall replace_all,
       Tools.editTool fsm pm file_path old new replace_all fs =
       (inr (js "Error: old_string and new_string are the same"), fs)) /\
    (str_eqb old new = false ->
     forall msg replace_all,
       Tools.readFileSync fsm fs (Tools.absolutePath_of pm file_path) = inl msg ->
       Tools.editTool fsm pm file_path old new replace_all fs =
       (inr (js "Error: " ++ msg), fs)) /\
    (str_eqb old new = false ->
     forall content,
       Tools.readFileSync fsm fs (Tools.absolutePath_of pm file_path) = inr content ->
       (old <> [] -> occurs old content = false ->
        Tools.editTool fsm pm file_path old new false fs =
        (inr (js "Error: old_string not found"), fs)) /\
       ((1 < Tools.occurrences_of old content)%Z ->
        Tools.editTool fsm pm file_path old new false fs =
        (inr (js "Error: old_string found in " ++
              Str.number_to_string (Z.to_N (Tools.occurrences_of old content)) ++
              js " places. Must be unique. Include more context or use replace_all=true."),
         fs))).
Proof.
  intros file_path old new fs. split; [| split].
  - intros Hsame replace_all.
    unfold Tools.editTool, Tools.or_error_text, try_catch, ret.
    now rewrite Hsame.
  - intros Hdiff msg replace_all Hread.
    unfold Tools.editTool, Tools.or_error_text, try_catch, bind,
      Tools.read_file, ret.
    rewrite Hdiff, Hread. now destruct replace_all.
  - intros Hdiff content Hread. split.
    + intros Hne Hocc. apply editTool_not_found with (content := content);
        try assumption.
      rewrite occurrences_count by exact Hne.
      now rewrite occurs_false_count.
    + intros Hocc. now apply editTool_ambiguous.
Qed.

(** X10. When [old_string] is counted once and [new_string] holds no
    dollar sign, [edit_file] writes the content with the leftmost
    occurrence of [old_string] replaced by [new_string], everything
    before and after it unchanged, and reports the edit; when that write
    fails it reports the error and leaves the files as they were. *)
Theorem edit_replaces_leftmost :
  forall file_path old new fs content,
    str_eqb old new = false ->
    Tools.readFileSync fsm fs (Tools.absolutePath_of pm file_path) = inr content ->
    Tools.occurrences_of old content = 1%Z ->
    Tools.dollar_free new ->
    exists pre post,
      content = pre ++ old ++ post /\
      (forall a1 a2, pre = a1 ++ a2 -> a2 <> [] ->
         strip_prefix old (a2 ++ old ++ post) = None) /\
      Tools.editTool fsm pm file_path old new false fs =
      match Tools.writeFileSync fsm fs (Tools.absolutePath_of pm file_path)
              (pre ++ new ++ post) with
      | inr fs' => (inr (js "File edited: " ++ file_path), fs')
      | inl msg => (inr (js "Error: " ++ msg), fs)
      end.
Proof.
  intros file_path old new fs content Hdiff Hread Hocc Hnew.
  destruct (replace_single old new content Hocc) as (pre & post & Hs & Hfirst & Hr).
  exists pre, post. split; [exact Hs |]. split; [exact Hfirst |].
  rewrite (editTool_single fsm pm file_path old new fs Hdiff Hread Hocc), Hr.
  now rewrite get_substitution_plain.
Qed.

(** X11. A [new_string] is a replacement template: where it holds [$&]
    between texts without dollar sign, the file gets [old_string] itself
    at that place. *)
Theorem edit_expands_dollar_ampersand :
  forall file_path old a b fs content,
    str_eqb old (a ++ js "$&" ++ b) = false ->
    Tools.readFileSync fsm fs (Tools.absolutePath_of pm file_path) = inr content ->
    Tools.occurrences_of old content = 1%Z ->
    Tools.dollar_free a -> Tools.dollar_free b ->
    exists pre post,
      content = pre ++ old ++ post /\
      Tools.editTool fsm pm file_path old (a ++ js "$&" ++ b) false fs =
      match Tools.writeFileSync fsm fs (Tools.absolutePath_of pm file_path)
              (pre ++ (a ++ old ++ b) ++ post) with
      | inr fs' => (inr (js "File edited: " ++ file_path), fs')
      | inl msg => (inr (js "Error: " ++ msg), fs)
      end.
Proof.
  intros file_path old a b fs content Hdiff Hread Hocc Ha Hb.
  destruct (replace_single old (a ++ js "$&" ++ b) content Hocc)
    as (pre & post & Hs & _ & Hr).
  exists pre, post. split; [exact Hs |].
  rewrite (editTool_single fsm pm file_path old _ fs Hdiff Hread Hocc), Hr.
  now rewrite get_substitution_matched.
Qed.

(** X12. With [replace_all], a non-empty [old_string] and a
    [new_string] without dollar sign, the count [edit_file] reports is
    the count the other mode takes from [split], and the content it
    writes differs in length from the old one by that count times the
    difference of the two strings' lengths. *)
Theorem edit_replace_all_count :
  forall file_path old new fs content,
    str_eqb old new = false ->
    Tools.readFileSync fsm fs (Tools.absolutePath_of pm file_path) = inr content ->
    old <> [] -> Tools.dollar_free new ->
    exists count written,
      Z.of_nat count = Tools.occurrences_of old content /\
      length written + count * length old = length content + count * length new /\
      Tools.editTool fsm pm file_path old new true fs =
      match Tools.writeFileSync fsm fs (Tools.absolutePath_of pm file_path) written with
      | inr fs' =>
          (inr (js "Replaced " ++ Str.number_to_string (N.of_nat count) ++
                js " occurrence(s): " ++ file_path), fs')
      | inl msg => (inr (js "Error: " ++ msg), fs)
      end.
Proof.
  intros file_path old new fs content Hdiff Hread Hne Hnew.
  exists (Str.count_from old 0 content), (Str.replaceAll old new content).
  split; [now rewrite occurrences_count |]. split.
  - pose proof (replaceAll_from_length Hne Hnew content 0 []) as H.
    unfold Str.replaceAll. simpl Nat.min in H. lia.
  - now apply editTool_all.
Qed.

(** X13. With [replace_all], an [old_string] that does not occur is no
    error: the file is written back as it was read and zero occurrences
    are reported. *)
Theorem edit_replace_all_absent :
  forall file_path old new fs content fs',
    str_eqb old new = false ->
    Tools.readFileSync fsm fs (Tools.absolutePath_of pm file_path) = inr content ->
    old <> [] -> occurs old content = false ->
    Tools.writeFileSync fsm fs (Tools.absolutePath_of pm file_path) content = inr fs' ->
    Tools.editTool fsm pm file_path old new true fs =
    (inr (js "Replaced 0 occurrence(s): " ++ file_path), fs').
Proof.
  intros file_path old new fs content fs' Hdiff Hread Hne Hocc Hwrite.
  rewrite (editTool_all fsm pm file_path old new fs Hdiff Hread).
  unfold Str.replaceAll.
  rewrite occurs_false_replaceAll, occurs_false_count, Hwrite by assumption.
  reflexivity.
Qed.

(** X14. An empty [old_string] is counted as one less than the length
    of the content: on a content of one code unit the edit is refused
    as not found, on three or more as ambiguous, and on an empty content
    or one of two code units [new_string] is written in front of it. *)
Theorem edit_with_empty_old_string :
  forall file_path new fs content,
    str_eqb [] new = false ->
    Tools.readFileSync fsm fs (Tools.absolutePath_of pm file_path) = inr content ->
    (length content = 1 ->
     Tools.editTool fsm pm file_path [] new false fs =
     (inr (js "Error: old_string not found"), fs)) /\
    (3 <= length content ->
     Tools.editTool fsm pm file_path [] new false fs =
     (inr (js "Error: old_string found in " ++
           Str.number_to_string (N.of_nat (length content - 1)) ++
           js " places. Must be unique. Include more context or use replace_all=true."),
      fs)) /\
    (length content = 0 \/ length content = 2 ->
     Tools.dollar_free new ->
     Tools.editTool fsm pm file_path [] new false fs =
     match Tools.writeFileSync fsm fs (Tools.absolutePath_of pm file_path)
             (new ++ content) with
     | inr fs' => (inr (js "File edited: " ++ file_path), fs')
     | inl msg => (inr (js "Error: " ++ msg), fs)
     end).
Proof.
  intros file_path new fs content Hdiff Hread.
  pose proof (occurrences_empty content) as Hocc.
  split; [| split].
  - intros Hlen. apply editTool_not_found with (content := content);
      try assumption. lia.
  - intros Hlen.
    rewrite (editTool_ambiguous file_path [] new fs Hdiff Hread) by lia.
    rewrite Hocc. do 3 f_equal. f_equal. f_equal. lia.
  - intros Hlen Hnew.
    rewrite (editTool_writes file_path [] new fs Hdiff Hread)
      by (first [apply Z.eqb_neq | apply Z.ltb_ge]; lia).
    unfold Str.replace.
    replace (Str.replace_from [] new [] content) with (new ++ content);
      [reflexivity |].
    destruct content; cbn [Str.replace_from strip_prefix];
      now rewrite get_substitution_plain.
Qed.

(** X15. On a file system where a file just written reads back as
    written, [write_file] followed by [read_file] on the same path shows
    the content written: from the output of [read_file] a content of at
    most 2000 lines is read back whole. *)
Theorem write_then_read :
  forall file_path content fs fs',
    (forall fs1 p c fs2,
        Tools.writeFileSync fsm fs1 p c = inr fs2 ->
        Tools.readFileSync fsm fs2 p = inr c) ->
    Tools.writeFileSync fsm fs (Tools.absolutePath_of pm file_path) content = inr fs' ->
    Tools.writeTool fsm pm file_path content fs
      = (inr (js "File written: " ++ file_path), fs') /\
    Tools.readTool fsm pm file_path None None fs'
      = (inr (Tools.read_lines content None None), fs') /\
    (length (Str.split LF content) <= 2000 ->
     join LF (map Tools.after_arrow
                (Str.split LF (Tools.read_lines content None None))) = content).
Proof.
  intros file_path content fs fs' Hlaw Hwrite.
  split; [| split].
  - unfold Tools.writeTool, Tools.or_error_text, try_catch, bind,
      Tools.write_file, ret.
    now rewrite Hwrite.
  - unfold Tools.readTool, Tools.or_error_text, try_catch, bind,
      Tools.read_file, ret.
    now rewrite (Hlaw _ _ _ _ Hwrite).
  - apply read_whole.
Qed.

End EditBranches.

(* ----------------------------------------------------------------- *)
(** *** Runs on the file system in memory *)

(** The file system in memory: a file just written reads back. *)
Lemma mem_fs_read_after_write :
  forall fs1 p c fs2,
    Tools.writeFileSync Tools.mem_fs fs1 p c = inr fs2 ->
    Tools.readFileSync Tools.mem_fs fs2 p = inr c.
Proof.
  intros fs1 p c fs2 H. cbn in H. inversion H; subst. cbn.
  replace (str_eqb p p) with true; [reflexivity |].
  symmetry. now apply str_eqb_true.
Qed.

Lemma write_then_read_witness :
  Tools.writeTool Tools.mem_fs Tools.posix_paths (js "notes.txt") (js "Do X" ++ LF) []
    = (inr (js "File written: " ++ js "notes.txt"),
       [(js "/project/notes.txt", js "Do X" ++ LF)]) /\
  Tools.readTool Tools.mem_fs Tools.posix_paths (js "notes.txt") None None
      [(js "/project/notes.txt", js "Do X" ++ LF)]
    = (inr (Tools.read_lines (js "Do X" ++ LF) None None),
       [(js "/project/notes.txt", js "Do X" ++ LF)]) /\
  (length (Str.split LF (js "Do X" ++ LF)) <= 2000 ->
   join LF (map Tools.after_arrow
              (Str.split LF (Tools.read_lines (js "Do X" ++ LF) None None)))
   = js "Do X" ++ LF).
Proof.
  exact (@write_then_read Tools.MemFs Tools.mem_fs Tools.posix_paths
           (js "notes.txt") (js "Do X" ++ LF) []
           [(js "/project/notes.txt", js "Do X" ++ LF)]
           mem_fs_read_after_write eq_refl).
Defined.

(** One occurrence of [beta] in the notes. *)
Lemma edit_replaces_leftmost_witness :
  exists pre post,
    js "alpha beta" = pre ++ js "beta" ++ post /\
    (forall a1 a2, pre = a1 ++ a2 -> a2 <> [] ->
       strip_prefix (js "beta") (a2 ++ js "beta" ++ post) = None) /\
    Tools.editTool Tools.mem_fs Tools.posix_paths (js "notes.txt")
      (js "beta") (js "gamma") false Files.notes =
    match Tools.writeFileSync Tools.mem_fs Files.notes
            (Tools.absolutePath_of Tools.posix_paths (js "notes.txt"))
            (pre ++ js "gamma" ++ post) with
    | inr fs' => (inr (js "File edited: " ++ js "notes.txt"), fs')
    | inl msg => (inr (js "Error: " ++ msg), Files.notes)
    end.
Proof.
  apply (@edit_replaces_leftmost Tools.MemFs Tools.mem_fs Tools.posix_paths
           (js "notes.txt") (js "beta") (js "gamma") Files.notes (js "alpha beta")
           eq_refl eq_refl eq_refl).
  repeat constructor; discriminate.
Defined.

(** [beta] turned into [(beta)]. *)
Lemma edit_expands_dollar_ampersand_witness :
  exists pre post,
    js "alpha beta" = pre ++ js "beta" ++ post /\
    Tools.editTool Tools.mem_fs Tools.posix_paths (js "notes.txt")
      (js "beta") (js "(" ++ js "$&" ++ js ")") false Files.notes =
    match Tools.writeFileSync Tools.mem_fs Files.notes
            (Tools.absolutePath_of Tools.posix_paths (js "notes.txt"))
            (pre ++ (js "(" ++ js "beta" ++ js ")") ++ post) with
    | inr fs' => (inr (js "File edited: " ++ js "notes.txt"), fs')
    | inl msg => (inr (js "Error: " ++ msg), Files.notes)
    end.
Proof.
  apply (@edit_expands_dollar_ampersand Tools.MemFs Tools.mem_fs Tools.posix_paths
           (js "notes.txt") (js "beta") (js "(") (js ")") Files.notes (js "alpha beta")
           eq_refl eq_refl eq_refl);
    repeat constructor; discriminate.
Defined.

(** Two occurrences of [a] in the notes. *)
Lemma edit_replace_all_count_witness :
  exists count written,
    Z.of_nat count = Tools.occurrences_of (js "a") (js "alpha beta") /\
    length written + count * length (js "a")
      = length (js "alpha beta") + count * length (js "oo") /\
    Tools.editTool Tools.mem_fs Tools.posix_paths (js "notes.txt")
      (js "a") (js "oo") true Files.notes =
    match Tools.writeFileSync Tools.mem_fs Files.notes
            (Tools.absolutePath_of Tools.posix_paths (js "notes.txt")) written with
    | inr fs' =>
        (inr (js "Replaced " ++ Str.number_to_string (N.of_nat count) ++
              js " occurrence(s): " ++ js "notes.txt"), fs')
    | inl msg => (inr (js "Error: " ++ msg), Files.notes)
    end.
Proof.
  apply (@edit_replace_all_count Tools.MemFs Tools.mem_fs Tools.posix_paths
           (js "notes.txt") (js "a") (js "oo") Files.notes (js "alpha beta")
           eq_refl eq_refl).
  - discriminate.
  - repeat constructor; discriminate.
Defined.

(** No [z] in the notes. *)
Lemma edit_replace_all_absent_witness :
  Tools.editTool Tools.mem_fs Tools.posix_paths (js "notes.txt")
    (js "z") (js "y") true Files.notes =
  (inr (js "Replaced 0 occurrence(s): " ++ js "notes.txt"),
   (js "/project/notes.txt", js "alpha beta") :: Files.notes).
Proof.
  apply (@edit_replace_all_absent Tools.MemFs Tools.mem_fs Tools.posix_paths
           (js "notes.txt") (js "z") (js "y") Files.notes (js "alpha beta")
           ((js "/project/notes.txt", js "alpha beta") :: Files.notes)
           eq_refl eq_refl);
    [discriminate | reflexivity | reflexivity].
Defined.

(** A file of two code units. *)
Lemma edit_with_empty_old_string_witness :
  (length (js "ab") = 1 ->
   Tools.editTool Tools.mem_fs Tools.posix_paths (js "ab.txt") [] (js "x") false
     Files.two_units =
   (inr (js "Error: old_string not found"), Files.two_units)) /\
  (3 <= length (js "ab") ->
   Tools.editTool Tools.mem_fs Tools.posix_paths (js "ab.txt") [] (js "x") false
     Files.two_units =
   (inr (js "Error: old_string found in " ++
         Str.number_to_string (N.of_nat (length (js "ab") - 1)) ++
         js " places. Must be unique. Include more context or use replace_all=true."),
    Files.two_units)) /\
  (length (js "ab") = 0 \/ length (js "ab") = 2 ->
   Tools.dollar_free (js "x") ->
   Tools.editTool Tools.mem_fs Tools.posix_paths (js "ab.txt") [] (js "x") false
     Files.two_units =
   match Tools.writeFileSync Tools.mem_fs Files.two_units
           (Tools.absolutePath_of Tools.posix_paths (js "ab.txt"))
           (js "x" ++ js "ab") with
   | inr fs' => (inr (js "File edited: " ++ js "ab.txt"), fs')
   | inl msg => (inr (js "Error: " ++ msg), Files.two_units)
   end).
Proof.
  exact (@edit_with_empty_old_string Tools.MemFs Tools.mem_fs Tools.posix_paths
           (js "ab.txt") (js "x") Files.two_units (js "ab") eq_refl eq_refl).
Defined.

(** X16. The pattern [edit_file] builds by escaping [old_string] denotes
    [old_string] itself, whatever syntax characters it holds: building
    the expression never throws, and the count reported with
    [replace_all] is the number of non-overlapping occurrences of
    [old_string] from the left. *)
Theorem escaped_pattern_counts_literal :
  forall (FS : Type) old content (fs : FS),
    Str.pattern_literal (Tools.escapedOldString old) = Some old /\
    Tools.match_count (Tools.escapedOldString old) content fs
      = (inr (Str.count_from old 0 content), fs).
Proof.
  intros FS old content fs.
  split; [apply pattern_literal_escaped |].
  unfold Tools.match_count. now rewrite pattern_literal_escaped.
Qed.

(* ================================================================= *)
(** * Further properties: [web_fetch] and [fetch_url] *)

Section FetchFacts.

Implicit Types (url text : jsstring).


End FetchFacts.


(** X18. A page of at most [maxLength] code units is returned as it is;
    a longer one is cut to its first [maxLength] code units, followed by
    a blank line and a notice that gives both lengths, so that the text
    returned is longer than [maxLength]. *)
Theorem fetched_text_truncated :
  forall text maxLength,
    ((N.of_nat (length text) <= maxLength)%N ->
     Tools.truncated text maxLength = text) /\
    ((maxLength < N.of_nat (length text))%N ->
     Tools.truncated text maxLength =
       firstn (N.to_nat maxLength) text ++ LF ++ LF ++
       js "[... Content truncated. Original length: " ++
       Str.number_to_string (N.of_nat (length text)) ++
       js " characters, showing first " ++
       Str.number_to_string maxLength ++ js " characters ...]" /\
     length (firstn (N.to_nat maxLength) text) = N.to_nat maxLength /\
     N.to_nat maxLength + 72 <= length (Tools.truncated text maxLength)).
Proof.
  intros text maxLength. unfold Tools.truncated. split.
  - intros Hle. replace (maxLength <? N.of_nat (length text))%N with false;
      [reflexivity |]. symmetry. apply N.ltb_ge. exact Hle.
  - intros Hlt. replace (maxLength <? N.of_nat (length text))%N with true
      by (symmetry; now apply N.ltb_lt).
    unfold Str.substring0.
    assert (Hcut : length (firstn (N.to_nat maxLength) text) = N.to_nat maxLength)
      by (rewrite length_firstn; lia).
    split; [reflexivity |]. split; [exact Hcut |].
    rewrite !length_app, Hcut. simpl. lia.
Qed.



(* ================================================================= *)
(** * Facts on the transcripts of a run *)

Section RunShape.

Context {json : Type}.
Implicit Types (st : State json) (log : Log json) (w : Workflow json).
Implicit Types (t msgs more : list (BaseMessage json)).

Lemma dispatched_by_graph registry (l : list (ToolCall json)) :
  Forall (fun m => by_graph m = true) (map (dispatch registry) l).
Proof.
  induction l as [| tc l IH]; [constructor |].
  simpl. constructor; [| exact IH].
  destruct (dispatch_result registry tc) as [text ->]. reflexivity.
Qed.

Lemma toolNode_appends_by_graph registry st log upd log' :
  toolNode registry st log = (inr upd, log') ->
  Forall (fun m => by_graph m = true) upd.
Proof.
  intros H. apply toolNode_inv in H.
  destruct H as [_ [(l & Hr) | (msg & Hr)]]; inversion Hr.
  apply dispatched_by_graph.
Qed.

Lemma queries_of_app t more :
  queries_of (t ++ more) = queries_of t ++ queries_of more.
Proof.
  induction t as [| m t IH]; [reflexivity |].
  destruct m; simpl; try exact IH. now f_equal.
Qed.

Lemma queries_of_by_graph more :
  Forall (fun m => by_graph m = true) more -> queries_of more = [].
Proof.
  induction 1 as [| m more Hm _ IH]; [reflexivity |].
  destruct m; try discriminate; exact IH.
Qed.

Lemma is_ai_by_graph_tools registry (l : list (ToolCall json)) :
  filter is_ai (map (dispatch registry) l) = [].
Proof.
  induction l as [| tc l IH]; [reflexivity |].
  simpl. destruct (dispatch_result registry tc) as [text ->]. exact IH.
Qed.

(** A run that returns has appended answers and tool results only, the
    last of them an answer without tool calls. *)
Lemma run_shape w :
  appends_one_ai w ->
  (forall st log upd log',
      tools_node w st log = (inr upd, log') ->
      Forall (fun m => by_graph m = true) upd) ->
  forall fuel node st log st' log',
    run w fuel node st log = (inr st', log') ->
    (exists more, messages st' = messages st ++ more /\
                  Forall (fun m => by_graph m = true) more) /\
    (exists t c tcs, messages st' = t ++ [AIMessage c tcs] /\ calls tcs = []).
Proof.
  intros Hone Htools.
  induction fuel as [| fuel IH]; intros node st log st' log' Hrun;
    [discriminate Hrun |].
  destruct node.
  - rewrite run_agent_step in Hrun.
    destruct (agent_node w st log) as [[e | upd] log1] eqn:Ea; [discriminate Hrun |].
    destruct (Hone _ _ _ _ Ea) as (c & tcs & ->).
    unfold apply_update, reducer in Hrun.
    rewrite shouldContinue_snoc in Hrun.
    destruct (calls tcs) as [| tc l] eqn:Ec.
    + inversion Hrun; subst. cbn [messages]. split.
      * exists [AIMessage c tcs]. split; [reflexivity | now repeat constructor].
      * now exists (messages st), c, tcs.
    + apply IH in Hrun. destruct Hrun as [(more & Hm & Hg) Hlast].
      split; [| exact Hlast].
      exists (AIMessage c tcs :: more). cbn [messages] in Hm.
      rewrite Hm, <- app_assoc. split; [reflexivity | now constructor].
  - rewrite run_tools_step in Hrun.
    destruct (tools_node w st log) as [[e | upd] log1] eqn:Et; [discriminate Hrun |].
    apply Htools in Et.
    apply IH in Hrun. destruct Hrun as [(more & Hm & Hg) Hlast].
    split; [| exact Hlast].
    exists (upd ++ more). cbn [apply_update messages] in Hm. unfold reducer in Hm.
    rewrite Hm, <- app_assoc. split; [reflexivity | now apply Forall_app].
Qed.

Lemma session_shape w :
  appends_one_ai w ->
  (forall st log upd log',
      tools_node w st log = (inr upd, log') ->
      Forall (fun m => by_graph m = true) upd) ->
  forall limit queries saved log transcript log',
    session w limit saved queries log = (inr transcript, log') ->
    exists more, transcript = saved ++ more /\ queries_of more = queries.
Proof.
  intros Hone Htools limit.
  induction queries as [| q later IH]; intros saved log transcript log' Hrun.
  - inversion Hrun; subst. exists []. now rewrite app_nil_r.
  - rewrite session_step in Hrun.
    destruct (invoke w limit saved [HumanMessage q] log)
      as [[e | result] log1] eqn:Ei; [discriminate Hrun |].
    unfold invoke in Ei.
    apply (run_shape Hone Htools) in Ei.
    destruct Ei as [(more1 & Hm1 & Hg1) _]. cbn [messages] in Hm1.
    unfold reducer in Hm1.
    apply IH in Hrun. destruct Hrun as (more2 & -> & Hq).
    exists (HumanMessage q :: more1 ++ more2).
    rewrite Hm1, <- !app_assoc. split; [reflexivity |].
    cbn [queries_of]. rewrite queries_of_app, (queries_of_by_graph Hg1), Hq.
    reflexivity.
Qed.

Lemma answered_from_app pre (a b : list (BaseMessage json)) :
  answered_from pre (a ++ b)
  = answered_from pre a ++ answered_from (pre ++ a) b.
Proof.
  revert pre. induction a as [| m a IH]; intros pre.
  - now rewrite app_nil_r.
  - cbn [List.app answered_from]. rewrite IH, <- !app_assoc. reflexivity.
Qed.

Lemma answered_from_tools registry pre (l : list (ToolCall json)) :
  answered_from pre (map (dispatch registry) l) = [].
Proof.
  revert pre. induction l as [| tc l IH]; intros pre; [reflexivity |].
  cbn [map answered_from].
  destruct (dispatch_result registry tc) as [text ->]. cbn [is_ai List.app].
  apply IH.
Qed.

Lemma answered_from_length pre more :
  length (answered_from pre more) = length (filter is_ai more).
Proof.
  revert pre. induction more as [| m more IH]; intros pre; [reflexivity |].
  cbn [answered_from filter]. rewrite length_app, IH.
  destruct (is_ai m); reflexivity.
Qed.

(** In the graph of [index-with-graph.ts] the model is invoked once for
    each answer, on the transcript as it stands before that answer. *)
Lemma graph_run_inputs (m : ChatModel json) registry :
  forall fuel node st log st' log',
    run (graph_app m registry) fuel node st log = (inr st', log') ->
    exists more,
      messages st' = messages st ++ more /\
      log' = log ++ answered_from (messages st) more.
Proof.
  induction fuel as [| fuel IH]; intros node st log st' log' Hrun;
    [discriminate Hrun |].
  destruct node.
  - rewrite run_agent_step in Hrun. cbn [graph_app agent_node] in Hrun.
    destruct (graph_agent m st log) as [[e | upd] log1] eqn:Ea; [discriminate Hrun |].
    apply graph_agent_inv in Ea.
    destruct Ea as [-> [(c & tcs & Hr) | (msg & Hr)]]; [| discriminate Hr].
    inversion Hr; subst upd; clear Hr.
    unfold apply_update, reducer in Hrun.
    rewrite shouldContinue_snoc in Hrun.
    destruct (calls tcs) as [| tc l].
    + inversion Hrun; subst. cbn [messages].
      exists [AIMessage c tcs]. split; reflexivity.
    + apply IH in Hrun. destruct Hrun as (more & Hm & ->).
      cbn [messages] in Hm |- *.
      exists (AIMessage c tcs :: more). split.
      * rewrite Hm, <- app_assoc. reflexivity.
      * cbn [answered_from is_ai]. rewrite <- !app_assoc. reflexivity.
  - rewrite run_tools_step in Hrun. cbn [graph_app tools_node] in Hrun.
    destruct (toolNode registry st log) as [[e | upd] log1] eqn:Et; [discriminate Hrun |].
    apply toolNode_inv in Et.
    destruct Et as [-> [(l & Hr) | (msg & Hr)]]; [| discriminate Hr].
    inversion Hr; subst upd; clear Hr.
    apply IH in Hrun. destruct Hrun as (more & Hm & ->).
    cbn [apply_update messages] in Hm |- *. unfold reducer in Hm |- *.
    exists (map (dispatch registry) l ++ more). split.
    + rewrite Hm, <- app_assoc. reflexivity.
    + now rewrite answered_from_app, answered_from_tools.
Qed.

Lemma callModel_eq (config : Config json) (m : ChatModel json) st log :
  config_model config = Some m ->
  callModel st config log = graph_agent m st log.
Proof. intros H. unfold callModel, graph_agent. now rewrite H. Qed.

End RunShape.

(* ================================================================= *)
(** * Further properties: the turn loop *)

(** X20. A Session only appends: the transcript it returns is the
    checkpoint it started from followed by new messages, and the
    [HumanMessage]s among the new messages are the queries of the
    caller, one for each, in order. *)
Theorem session_appends_the_queries :
  forall (json : Type) (w : Workflow json) modelWithTools skillsPrompt registry
         recursionLimit saved queries log transcript log',
    w = graph_app modelWithTools registry \/
    w = skills_app modelWithTools skillsPrompt registry ->
    session w recursionLimit saved queries log = (inr transcript, log') ->
    exists more, transcript = saved ++ more /\ queries_of more = queries.
Proof.
  intros json w m prompt registry limit saved queries log transcript log' Hw Hrun.
  eapply session_shape; [| | exact Hrun].
  - destruct Hw as [-> | ->];
      [apply graph_app_appends_one_ai | apply skills_app_appends_one_ai].
  - intros st l upd l' Ht.
    destruct Hw as [-> | ->]; cbn [graph_app skills_app tools_node] in Ht;
      eapply toolNode_appends_by_graph; exact Ht.
Qed.

(** The Session of scenario C. *)
Lemma session_appends_the_queries_witness :
  exists more,
    [HumanMessage (js "search X");
     AIMessage [] (Some [Scenario.search_call]);
     ToolMessage (js "result text") (js "1");
     AIMessage (js "done") None] = [] ++ more /\
    queries_of more = [js "search X"].
Proof.
  exact (@session_appends_the_queries jsstring
           (graph_app Scenario.scripted_model Scenario.search_registry)
           Scenario.scripted_model [] Scenario.search_registry
           25 [] [js "search X"] [] _ _
           (or_introl eq_refl) eq_refl).
Defined.

(** X21. The last message of the transcript an invocation returns is an
    [AIMessage] without tool calls: what [main] prints as the agent's
    response is the answer of the model that ended the run. *)
Theorem invocation_ends_with_an_answer :
  forall (json : Type) (w : Workflow json) modelWithTools skillsPrompt registry
         recursionLimit saved input log result log',
    w = graph_app modelWithTools registry \/
    w = skills_app modelWithTools skillsPrompt registry ->
    invoke w recursionLimit saved input log = (inr result, log') ->
    exists t c tcs,
      messages result = t ++ [AIMessage c tcs] /\
      calls tcs = [] /\
      last_message (messages result) = Some (AIMessage c tcs).
Proof.
  intros json w m prompt registry limit saved input log result log' Hw Hrun.
  unfold invoke in Hrun.
  assert (Hone : appends_one_ai w).
  { destruct Hw as [-> | ->];
      [apply graph_app_appends_one_ai | apply skills_app_appends_one_ai]. }
  assert (Htools : forall st l upd l',
             tools_node w st l = (inr upd, l') ->
             Forall (fun m => by_graph m = true) upd).
  { intros st l upd l' Ht.
    destruct Hw as [-> | ->]; cbn [graph_app skills_app tools_node] in Ht;
      eapply toolNode_appends_by_graph; exact Ht. }
  destruct (run_shape Hone Htools _ _ _ _ Hrun) as [_ (t & c & tcs & Hm & Hc)].
  exists t, c, tcs. split; [exact Hm |]. split; [exact Hc |].
  rewrite Hm. apply last_message_snoc.
Qed.

(** The invocation of scenario C. *)
Lemma invocation_ends_with_an_answer_witness :
  exists t c tcs,
    [HumanMessage (js "search X");
     AIMessage [] (Some [Scenario.search_call]);
     ToolMessage (js "result text") (js "1");
     @AIMessage jsstring (js "done") None] = t ++ [AIMessage c tcs] /\
    calls tcs = [] /\
    last_message
      [HumanMessage (js "search X");
       AIMessage [] (Some [Scenario.search_call]);
       ToolMessage (js "result text") (js "1");
       @AIMessage jsstring (js "done") None] = Some (AIMessage c tcs).
Proof.
  exact (@invocation_ends_with_an_answer jsstring
           (graph_app Scenario.scripted_model Scenario.search_registry)
           Scenario.scripted_model [] Scenario.search_registry
           25 [] [HumanMessage (js "search X")] []
           {| messages := [HumanMessage (js "search X");
                           AIMessage [] (Some [Scenario.search_call]);
                           ToolMessage (js "result text") (js "1");
                           AIMessage (js "done") None] |} _
           (or_introl eq_refl) eq_refl).
Defined.

(** X22. In a Session of [index-with-graph.ts] the model is given the
    whole transcript each time: the model inputs of the Session are, in
    order, the transcript as it stands before each [AIMessage] the
    Session adds, one invocation for each, and nothing else is passed
    to the model. *)
Theorem model_sees_the_whole_transcript :
  forall (json : Type) (modelWithTools : ChatModel json) registry
         recursionLimit saved queries log transcript log',
    session (graph_app modelWithTools registry) recursionLimit saved queries log
      = (inr transcript, log') ->
    exists more,
      transcript = saved ++ more /\
      log' = log ++ answered_from saved more /\
      length (answered_from saved more) = length (filter is_ai more).
Proof.
  intros json m registry limit saved queries. revert saved.
  induction queries as [| q later IH]; intros saved log transcript log' Hrun.
  - inversion Hrun; subst. exists []. now rewrite !app_nil_r.
  - rewrite session_step in Hrun.
    destruct (invoke (graph_app m registry) limit saved [HumanMessage q] log)
      as [[e | result] log1] eqn:Ei; [discriminate Hrun |].
    unfold invoke in Ei. apply graph_run_inputs in Ei.
    destruct Ei as (more1 & Hm1 & ->).
    cbn [messages] in Hm1 |- *. unfold reducer in Hm1 |- *.
    apply IH in Hrun. destruct Hrun as (more2 & -> & -> & _).
    exists (HumanMessage q :: more1 ++ more2). split; [| split].
    + rewrite Hm1, <- !app_assoc. reflexivity.
    + cbn [answered_from is_ai List.app].
      rewrite answered_from_app, Hm1, <- !app_assoc. reflexivity.
    + apply answered_from_length.
Qed.

(** The Session of scenario C: two invocations, two answers. *)
Lemma model_sees_the_whole_transcript_witness :
  exists more,
    [HumanMessage (js "search X");
     AIMessage [] (Some [Scenario.search_call]);
     ToolMessage (js "result text") (js "1");
     AIMessage (js "done") None] = [] ++ more /\
    [[HumanMessage (js "search X")];
     [HumanMessage (js "search X");
      AIMessage [] (Some [Scenario.search_call]);
      ToolMessage (js "result text") (js "1")]] = [] ++ answered_from [] more /\
    length (answered_from [] more) = length (filter is_ai more).
Proof.
  exact (@model_sees_the_whole_transcript jsstring
           Scenario.scripted_model Scenario.search_registry
           25 [] [js "search X"] [] _ _ eq_refl).
Defined.

(** X23. The agent nodes do not catch: when the model rejects, the node
    throws the model's error, the run fails with it after that one
    invocation, and a Session runs no later query. *)
Theorem model_rejection_is_fatal :
  forall (json : Type) (modelWithTools : ChatModel json) skillsPrompt registry
         fuel (st : State json) log msg,
    (respond modelWithTools log (messages st) = inl msg ->
     graph_agent modelWithTools st log = (inl (Error msg), log ++ [messages st]) /\
     run (graph_app modelWithTools registry) (S fuel) agent st log
       = (inl (Error msg), log ++ [messages st])) /\
    (forall input,
        input = (if length (messages st) =? 1
                 then SystemMessage skillsPrompt :: messages st
                 else messages st) ->
        respond modelWithTools log input = inl msg ->
        skills_agent modelWithTools skillsPrompt st log
          = (inl (Error msg), log ++ [input]) /\
        run (skills_app modelWithTools skillsPrompt registry) (S fuel) agent st log
          = (inl (Error msg), log ++ [input])) /\
    (forall saved query later,
        respond modelWithTools log (saved ++ [HumanMessage query]) = inl msg ->
        session (graph_app modelWithTools registry) (S fuel) saved (query :: later) log
          = (inl (Error msg), log ++ [saved ++ [HumanMessage query]])).
Proof.
  intros json m prompt registry fuel st log msg.
  assert (Hgraph : forall s, respond m log (messages s) = inl msg ->
            graph_agent m s log = (inl (Error msg), log ++ [messages s])).
  { intros s H. unfold graph_agent, bind, model_invoke. now rewrite H. }
  split; [| split].
  - intros H. split; [now apply Hgraph |].
    rewrite run_agent_step. cbn [graph_app agent_node]. now rewrite Hgraph.
  - intros input -> H.
    assert (Ha : skills_agent m prompt st log
                 = (inl (Error msg),
                    log ++ [if length (messages st) =? 1
                            then SystemMessage prompt :: messages st
                            else messages st])).
    { unfold skills_agent, bind, model_invoke.
      destruct (length (messages st) =? 1); now rewrite H. }
    split; [exact Ha |].
    rewrite run_agent_step. cbn [skills_app agent_node]. now rewrite Ha.
  - intros saved query later H.
    rewrite session_step. unfold invoke, reducer.
    rewrite run_agent_step. cbn [graph_app agent_node].
    now rewrite (Hgraph {| messages := saved ++ [HumanMessage query] |} H).
Qed.

(** X24. With a model in its configuration [callModel] is the agent
    node that [main] installs in its place: the two make the same
    invocation and return the same update, and a graph built on either
    runs the same. *)
Theorem callModel_is_the_agent_node :
  forall (json : Type) (config : Config json) (m : ChatModel json),
    config_model config = Some m ->
    (forall st log, callModel st config log = graph_agent m st log) /\
    (forall registry fuel node st log,
        run {| agent_node := fun s => callModel s config;
               tools_node := toolNode registry |} fuel node st log
        = run (graph_app m registry) fuel node st log).
Proof.
  intros json config m Hm.
  split; [intros st log; exact (@callModel_eq _ config m st log Hm) |].
  intros registry.
  induction fuel as [| fuel IH]; intros node st log; [reflexivity |].
  destruct node.
  - rewrite !run_agent_step. cbn [graph_app agent_node].
    rewrite (@callModel_eq _ config m st log Hm).
    destruct (graph_agent m st log) as [[e | upd] log1]; [reflexivity |].
    destruct (shouldContinue (apply_update st upd)) as [e | [|]];
      [reflexivity | apply IH | reflexivity].
  - rewrite !run_tools_step. cbn [graph_app tools_node].
    destruct (toolNode registry st log) as [[e | upd] log1]; [reflexivity |].
    apply IH.
Qed.

(** The scripted model, passed in the configuration. *)
Lemma callModel_is_the_agent_node_witness :
  (forall st log,
      callModel st {| configurable := Some {| model := Some Scenario.scripted_model |} |} log
      = graph_agent Scenario.scripted_model st log) /\
  (forall registry fuel node st log,
      run {| agent_node := fun s =>
               callModel s {| configurable :=
                                Some {| model := Some Scenario.scripted_model |} |};
             tools_node := toolNode registry |} fuel node st log
      = run (graph_app Scenario.scripted_model registry) fuel node st log).
Proof.
  exact (@callModel_is_the_agent_node jsstring
           {| configurable := Some {| model := Some Scenario.scripted_model |} |}
           Scenario.scripted_model eq_refl).
Defined.
